(** * simpleFileServer: the ZIP progress tracker and its HTTP endpoints

    A shallow embedding of the server half of [src/public/script.js]:
    the class [ZipProgressTracker], [countFilesRecursive],
    [createZipWithProgress] and the routes [/api/zip-progress/:jobId] and
    [/api/download-zip/:jobId].

    Modelling conventions.
    - [activeJobs] (a JS [Map] keyed by the job id) is a [gmap string Job].
    - A job object is a record; the field [zipPath], which the source adds
      with [Object.assign], is an [option] ([None] = [undefined]).
    - The object literals handed to [updateJob] are records of optional
      fields; [Object.assign] overwrites exactly the fields that are present.
    - JavaScript numbers are IEEE doubles. Counters are [N] (integers below
      2^53 are doubles, and [++] is exact on them); a finite double is the
      rational it denotes, and [/] and [*] round the exact result to the
      nearest double, ties to even, as the standard prescribes. The two
      non-finite values a division can produce are constructors of
      [jsnum].
    - [setTimeout] is a queue of pending actions with their due time, run by
      [tick]; [Date.now()] reads the same clock.
    - The [archiver] and [fs] streams are the environment: their callbacks
      arrive as a list of [event]s, in any order. *)

From Stdlib Require Import Ascii QArith Qround SpecFloat.
From stdpp Require Import gmap strings list fin_maps pretty.

Local Open Scope string_scope.
Local Open Scope N_scope.

(** ** Data model *)

Inductive Status := initializing | counting | zipping | completed | error_.

Global Instance Status_eq_dec : EqDecision Status.
Proof. solve_decision. Defined.

(** The terminal states of the protocol. *)
Definition terminal (st : Status) : bool :=
  match st with completed | error_ => true | _ => false end.

(** The values [Math.round(a / b * 100)] can take on non-negative integers
    [a] and [b]: an integer, [Infinity] (b = 0 < a) or [NaN] (0 / 0). *)
Inductive jsnum := JInt (z : Z) | JInfinity | JNaN.

Global Instance jsnum_eq_dec : EqDecision jsnum.
Proof. solve_decision. Defined.

(** [Math.round]: the nearest integer, halves going up; exact on its
    argument. *)
Definition Math_round (q : Q) : Z := Qfloor (q + (1 # 2)).

(** The integer nearest to [n / d], a tie going to the even one. *)
Definition round_nearest_even (n d : Z) : Z :=
  let q := (n / d)%Z in
  let r := (n mod d)%Z in
  if (2 * r <? d)%Z then q
  else if (d <? 2 * r)%Z then (q + 1)%Z
  else if Z.even q then q else (q + 1)%Z.

(** The fraction [p / (q * 2^e)], numerator and denominator. *)
Definition scaled (p q e : Z) : Z * Z :=
  ((p * 2 ^ Z.max (- e) 0)%Z, (q * 2 ^ Z.max e 0)%Z).

(** The exponent [e] of the double nearest to [p / q]: the one for which
    [p / (q * 2^e)] lies in [2^52, 2^53). *)
Definition double_exponent (p q : Z) : Z :=
  let L := (Z.log2 p - Z.log2 q - 53)%Z in
  if ((scaled p q L).1 / (scaled p q L).2 <? 2 ^ 53)%Z then L else (L + 1)%Z.

(** The double nearest to a non-negative rational: a significand of 53 bits,
    round to nearest, ties to even.  The exponent range is not bounded:
    the quotient of two counters below 2^53 and its product with 100 are
    far from overflow and from the subnormal numbers. *)
Definition to_double (x : Q) : Q :=
  let p := Qnum x in
  let q := Z.pos (Qden x) in
  if (p <=? 0)%Z then 0%Q
  else
    let e := double_exponent p q in
    let m := round_nearest_even (scaled p q e).1 (scaled p q e).2 in
    Qmake (m * 2 ^ Z.max e 0) (Z.to_pos (2 ^ Z.max (- e) 0)).

(** [a / b] and [a * b] on finite non-negative doubles, [b] not zero. *)
Definition js_div (a b : Q) : Q := to_double (a / b).
Definition js_mul (a b : Q) : Q := to_double (a * b).

(** [Math.round((filesProcessed / totalFiles) * 100)]. *)
Definition percent (filesProcessed totalFiles : N) : jsnum :=
  if totalFiles =? 0 then
    if filesProcessed =? 0 then JNaN else JInfinity
  else
    JInt (Math_round
            (js_mul (js_div (inject_Z (Z.of_N filesProcessed))
                            (inject_Z (Z.of_N totalFiles)))
                    (inject_Z 100))).

(** The same expression over the Standard Library's specification of
    IEEE 754 binary64 ([prec] 53, [emax] 1024), to check [percent] against. *)
Definition ieee_of_N (n : N) : spec_float :=
  binary_normalize 53 1024 (Z.of_N n) 0 false.

Definition ieee_value (x : spec_float) : option Q :=
  match x with
  | S754_zero _ => Some 0%Q
  | S754_finite false m e =>
      Some (Qmake (Z.pos m * 2 ^ Z.max e 0) (Z.to_pos (2 ^ Z.max (- e) 0)))
  | _ => None
  end.

Definition ieee_percent (filesProcessed totalFiles : N) : option Z :=
  Math_round <$>
    ieee_value
      (SFmul 53 1024
         (SFdiv 53 1024 (ieee_of_N filesProcessed) (ieee_of_N totalFiles))
         (ieee_of_N 100)).

(** The percentage the specification writes, [round(filesProcessed /
    totalFiles * 100)], in exact arithmetic, a half going up. *)
Definition spec_progressPercent (filesProcessed totalFiles : N) : Z :=
  Qfloor ((inject_Z (Z.of_N filesProcessed) / inject_Z (Z.of_N totalFiles))
          * inject_Z 100 + (1 # 2)).

Record Job := mkJob {
  job_id : string;
  folderPath : string;
  startTime : N;
  progress : jsnum;
  status : Status;
  filesProcessed : N;
  totalFiles : N;
  currentFile : string;
  error : option string;
  zipPath : option string
}.

(** The argument of [updateJob]: an object literal with some of the fields. *)
Record Updates := mkUpdates {
  u_progress : option jsnum;
  u_status : option Status;
  u_filesProcessed : option N;
  u_totalFiles : option N;
  u_currentFile : option string;
  u_zipPath : option string
}.

Definition no_updates : Updates := mkUpdates None None None None None None.

(** [Object.assign(job, updates)]. *)
Definition Object_assign (job : Job) (u : Updates) : Job :=
  {| job_id := job_id job;
     folderPath := folderPath job;
     startTime := startTime job;
     progress := default (progress job) (u_progress u);
     status := default (status job) (u_status u);
     filesProcessed := default (filesProcessed job) (u_filesProcessed u);
     totalFiles := default (totalFiles job) (u_totalFiles u);
     currentFile := default (currentFile job) (u_currentFile u);
     error := error job;
     zipPath := match u_zipPath u with Some p => Some p | None => zipPath job end |}.

(** What a [setTimeout] callback of this program does when it fires. *)
Inductive action :=
| DeleteJob (jobId : string)     (* () => this.activeJobs.delete(jobId) *)
| UnlinkFile (path : string).    (* () => fsSync.unlink(zipPath, ...) *)

(** The server's mutable state: the tracker's map, the files of the temp
    directory, the pending timers and the clock (milliseconds). *)
Record Server := mkServer {
  activeJobs : gmap string Job;
  files : gset string;
  timers : list (N * action);
  now : N
}.

Definition set_jobs (f : gmap string Job → gmap string Job) (s : Server) : Server :=
  mkServer (f (activeJobs s)) (files s) (timers s) (now s).

Definition set_files (f : gset string → gset string) (s : Server) : Server :=
  mkServer (activeJobs s) (f (files s)) (timers s) (now s).

(** [setTimeout(a, delay)]. *)
Definition setTimeout (a : action) (delay : N) (s : Server) : Server :=
  mkServer (activeJobs s) (files s) (timers s ++ [(now s + delay, a)]) (now s).

(** ** class ZipProgressTracker *)

Definition createJob (jobId folder : string) (s : Server) : Server :=
  let job := {| job_id := jobId;
                folderPath := folder;
                startTime := now s;
                progress := JInt 0;
                status := initializing;
                filesProcessed := 0;
                totalFiles := 0;
                currentFile := "";
                error := None;
                zipPath := None |} in
  set_jobs (insert jobId job) s.

Definition updateJob (jobId : string) (updates : Updates) (s : Server) : Server :=
  match activeJobs s !! jobId with
  | Some job => set_jobs (insert jobId (Object_assign job updates)) s
  | None => s
  end.

Definition completeJob (jobId : string) (s : Server) : Server :=
  match activeJobs s !! jobId with
  | Some job =>
      let job' := {| job_id := job_id job;
                     folderPath := folderPath job;
                     startTime := startTime job;
                     progress := JInt 100;
                     status := completed;
                     filesProcessed := filesProcessed job;
                     totalFiles := totalFiles job;
                     currentFile := currentFile job;
                     error := error job;
                     zipPath := zipPath job |} in
      setTimeout (DeleteJob jobId) 30000 (set_jobs (insert jobId job') s)
  | None => s
  end.

Definition errorJob (jobId : string) (message : string) (s : Server) : Server :=
  match activeJobs s !! jobId with
  | Some job =>
      let job' := {| job_id := job_id job;
                     folderPath := folderPath job;
                     startTime := startTime job;
                     progress := progress job;
                     status := error_;
                     filesProcessed := filesProcessed job;
                     totalFiles := totalFiles job;
                     currentFile := currentFile job;
                     error := Some message;
                     zipPath := zipPath job |} in
      setTimeout (DeleteJob jobId) 30000 (set_jobs (insert jobId job') s)
  | None => s
  end.

Definition getJob (jobId : string) (s : Server) : option Job :=
  activeJobs s !! jobId.

(** ** Timers *)

Definition run_action (a : action) (s : Server) : Server :=
  match a with
  | DeleteJob jobId => set_jobs (delete jobId) s
  | UnlinkFile path => set_files (λ fs, fs ∖ {[path]}) s
  end.

(** The clock advances by [ms]; every timer that is due by then fires and
    leaves the queue.  The callbacks are run in the order of the queue; the
    two kinds of callback of this program commute. *)
Definition tick (ms : N) (s : Server) : Server :=
  let t := now s + ms in
  let due := filter (λ p, p.1 ≤ t) (timers s) in
  let rest := filter (λ p, ¬ (p.1 ≤ t)) (timers s) in
  foldl (λ s' p, run_action (snd p) s')
        (mkServer (activeJobs s) (files s) rest t) due.

(** ** countFilesRecursive *)

(** What [fs.stat] and [fs.readdir] answer for a path during the walk. *)
Inductive node :=
| File                                    (* stat: not a directory *)
| Dir (items : list (string * node))      (* stat: directory; readdir: items *)
| UnreadableDir                           (* stat: directory; readdir throws *)
| Unstatable.                             (* stat throws *)

(** [countFilesRecursive(dirPath)], where [d] is what the file system holds
    at [dirPath].  The [try] block encloses [readdir] and the whole [for]
    loop: a throwing [readdir] (of anything but a listable directory) gives
    0, and a throwing [stat] leaves the loop, the function returning the
    count reached so far. *)
Fixpoint countFilesRecursive (d : node) : N :=
  match d with
  | Dir items =>
      (fix loop (items : list (string * node)) (count : N) {struct items} : N :=
         match items with
         | [] => count
         | (_, item) :: rest =>
             match item with
             | Unstatable => count
             | File => loop rest (count + 1)
             | Dir _ | UnreadableDir => loop rest (count + countFilesRecursive item)
             end
         end) items 0
  | File | UnreadableDir | Unstatable => 0
  end.

(** The loop of [countFilesRecursive], named. *)
Fixpoint count_loop (items : list (string * node)) (count : N) : N :=
  match items with
  | [] => count
  | (_, item) :: rest =>
      match item with
      | Unstatable => count
      | File => count_loop rest (count + 1)
      | Dir _ | UnreadableDir => count_loop rest (count + countFilesRecursive item)
      end
  end.

(** The number of non-directory entries at every depth, every unreadable
    subpath skipped and nothing else: the count the specification describes. *)
Fixpoint non_directory_entries (d : node) : N :=
  match d with
  | File => 1
  | Dir items =>
      (fix sum (items : list (string * node)) : N :=
         match items with
         | [] => 0
         | (_, item) :: rest => non_directory_entries item + sum rest
         end) items
  | UnreadableDir | Unstatable => 0
  end.

(** Every path of the tree can be listed and stat-ed. *)
Fixpoint readable (d : node) : bool :=
  match d with
  | File => true
  | Dir items =>
      (fix all (items : list (string * node)) : bool :=
         match items with
         | [] => true
         | (_, item) :: rest => readable item && all rest
         end) items
  | UnreadableDir | Unstatable => false
  end.

(** Induction over a tree: the property may be assumed of every entry of a
    directory's listing. *)
Fixpoint node_tree_ind (P : node → Prop)
    (HFile : P File)
    (HDir : ∀ items, Forall (λ p, P p.2) items → P (Dir items))
    (HUnreadable : P UnreadableDir)
    (HUnstatable : P Unstatable)
    (d : node) {struct d} : P d :=
  match d with
  | File => HFile
  | Dir items =>
      HDir items
        ((fix go (l : list (string * node)) : Forall (λ p, P p.2) l :=
            match l with
            | [] => List.Forall_nil _
            | (name, item) :: rest =>
                @List.Forall_cons _ (λ p, P p.2) (name, item) rest
                  (node_tree_ind P HFile HDir HUnreadable HUnstatable item)
                  (go rest)
            end) items)
  | UnreadableDir => HUnreadable
  | Unstatable => HUnstatable
  end.

(** ** createZipWithProgress and the HTTP routes *)

(** A failure object: only its [message] is read. *)
Definition Error := string.

(** The callbacks and continuations that reach one call of
    [createZipWithProgress], and the passing of time. *)
Inductive event :=
| MkdirOk                    (* the temp directory exists or was created *)
| MkdirThrows (err : Error)  (* [fs.mkdir] rejects: the [catch] block runs *)
| Counted (tree : node)      (* [countFilesRecursive(folderPath)] resolves *)
| OutputOpen                 (* the write stream has created the file *)
| Entry (name : string)      (* archive.on('entry') *)
| OutputClose                (* output.on('close') *)
| ArchiveError (err : Error) (* archive.on('error') *)
| OutputError (err : Error)  (* output.on('error') *)
| FinalizeThrows (err : Error) (* [archive.finalize()] rejects: [catch] *)
| Tick (ms : N).             (* [ms] milliseconds pass *)

(** The variables the handlers close over. *)
Record Closure := mkClosure {
  c_jobId : string;
  c_zipPath : string;
  c_totalFiles : N;
  c_filesProcessed : N
}.

(** Where one call of [createZipWithProgress] stands. *)
Inductive Task :=
| Setup (jobId zipPath : string)      (* awaiting [fs.mkdir] *)
| CountingFiles (jobId zipPath : string) (* awaiting [countFilesRecursive] *)
| Streaming (c : Closure)             (* handlers registered *)
| Abandoned.                          (* [catch] ran before any handler existed *)

(** The responses of the two polling routes. *)
Inductive Response :=
| JsonError (code : N) (message : string)   (* res.status(code).json({error}) *)
| JsonJob (job : Job)                       (* res.json(job) *)
| Download (zipPath filename : string).     (* res.download(zipPath, filename) *)

(** The template literal [`${foldername}_${Date.now()}.zip`]. *)
Definition zip_filename (foldername : string) (date_now : N) : string :=
  foldername +:+ "_" +:+ pretty date_now +:+ ".zip".

Section Routes.

(** Node's [path] module and the directory [path.join(__dirname, 'temp')]. *)
Variable path_join : string → string → string.
Variable path_basename : string → string.
Variable tempDir : string.

(** [const zipPath = path.join(tempDir, `${foldername}_${Date.now()}.zip`)]. *)
Definition make_zipPath (foldername : string) (date_now : N) : string :=
  path_join tempDir (zip_filename foldername date_now).

(** The body of archive.on('entry'). *)
Definition on_entry (name : string) (c : Closure) (s : Server) : Closure * Server :=
  let filesProcessed := c_filesProcessed c + 1 in
  let progress := percent filesProcessed (c_totalFiles c) in
  (mkClosure (c_jobId c) (c_zipPath c) (c_totalFiles c) filesProcessed,
   updateJob (c_jobId c)
     {| u_progress := Some progress;
        u_status := Some zipping;
        u_filesProcessed := Some filesProcessed;
        u_totalFiles := None;
        u_currentFile := Some name;
        u_zipPath := None |} s).

(** The body of output.on('close'). *)
Definition on_close (c : Closure) (s : Server) : Server :=
  updateJob (c_jobId c)
    {| u_progress := Some (JInt 100);
       u_status := Some completed;
       u_filesProcessed := None;
       u_totalFiles := None;
       u_currentFile := Some "Completed";
       u_zipPath := Some (c_zipPath c) |} s.

(** One event delivered to a call of [createZipWithProgress].  An event
    for which the call has no continuation or handler yet changes
    nothing. *)
Definition step (e : event) (cfg : Task * Server) : Task * Server :=
  let '(task, s) := cfg in
  match e, task with
  | Tick ms, _ => (task, tick ms s)
  | MkdirThrows err, Setup jobId _ => (Abandoned, errorJob jobId err s)
  | MkdirOk, Setup jobId zp =>
      (CountingFiles jobId zp,
       updateJob jobId
         {| u_progress := None; u_status := Some counting;
            u_filesProcessed := None; u_totalFiles := None;
            u_currentFile := Some "Counting files..."; u_zipPath := None |} s)
  | Counted tree, CountingFiles jobId zp =>
      let totalFiles := countFilesRecursive tree in
      (Streaming (mkClosure jobId zp totalFiles 0),
       updateJob jobId
         {| u_progress := None; u_status := Some zipping;
            u_filesProcessed := None; u_totalFiles := Some totalFiles;
            u_currentFile := None; u_zipPath := None |} s)
  | OutputOpen, Streaming c => (task, set_files (λ fs, {[c_zipPath c]} ∪ fs) s)
  | Entry name, Streaming c =>
      let '(c', s') := on_entry name c s in (Streaming c', s')
  | OutputClose, Streaming c => (task, on_close c s)
  | ArchiveError err, Streaming c => (task, errorJob (c_jobId c) err s)
  | OutputError err, Streaming c => (task, errorJob (c_jobId c) err s)
  | FinalizeThrows err, Streaming c => (task, errorJob (c_jobId c) err s)
  | _, _ => cfg
  end.

Definition run (evs : list event) (cfg : Task * Server) : Task * Server :=
  foldl (λ cfg e, step e cfg) cfg evs.

(** POST /api/start-zip/:foldername once the folder checks have passed:
    the job is created and [createZipWithProgress] is called, which fixes
    [zipPath] before its first [await]. *)
Definition start_zip (jobId folder foldername : string) (s : Server) : Task * Server :=
  (Setup jobId (make_zipPath foldername (now s)), createJob jobId folder s).

(** GET /api/zip-progress/:jobId *)
Definition zip_progress (jobId : string) (s : Server) : Response :=
  match getJob jobId s with
  | None => JsonError 404 "Job not found"
  | Some job => JsonJob job
  end.

(** GET /api/download-zip/:jobId, up to the call of [res.download]. *)
Definition download_zip (jobId : string) (s : Server) : Response :=
  match getJob jobId s with
  | None => JsonError 404 "Job not found"
  | Some job =>
      if decide (status job ≠ completed) then JsonError 400 "Job not completed"
      else
        match zipPath job with
        | Some zp =>
            if decide (zp ∈ files s) then Download zp (path_basename zp)
            else JsonError 404 "ZIP file not found"
        | None => JsonError 404 "ZIP file not found"
        end
  end.

(** The callback of [res.download]: after a transfer without error the
    file is unlinked five seconds later. *)
Definition download_done (zp : string) (err : option Error) (s : Server) : Server :=
  match err with
  | Some _ => s
  | None => setTimeout (UnlinkFile zp) 5000 s
  end.

End Routes.

(** ** Concrete inputs used by the examples below *)

(** [path.join] on a directory and a plain file name. *)
Definition ex_join (dir name : string) : string := dir +:+ "/" +:+ name.

(** [path.basename] of a path without trailing separator. *)
Fixpoint ex_basename_go (path cur : string) : string :=
  match path with
  | EmptyString => String.rev cur
  | String c rest =>
      if decide (c = "/"%char) then ex_basename_go rest ""
      else ex_basename_go rest (String c cur)
  end.

Definition ex_basename (path : string) : string := ex_basename_go path "".

Definition ex_tempDir : string := "/srv/app/temp".

(** An idle server at some instant. *)
Definition ex_server : Server := mkServer ∅ ∅ [] 1700000000000.

Definition ex_jobId : string := "zip_1700000000000_k3j9x0q1z".

(** The request [POST /api/start-zip/photos] on the idle server. *)
Definition ex_start : Task * Server :=
  start_zip ex_join ex_tempDir ex_jobId "/srv/data/photos" "photos" ex_server.

Definition ex_zipPath : string := "/srv/app/temp/photos_1700000000000.zip".

(** A folder with one file and one empty sub-folder. *)
Definition ex_tree : node := Dir [("a.txt", File); ("sub", Dir [])].

(** A folder that holds nothing but an empty sub-folder. *)
Definition ex_tree_dirs_only : node := Dir [("sub", Dir [])].

(** A folder whose first entry cannot be stat-ed, followed by a file. *)
Definition ex_tree_stat_fails : node := Dir [("a", Unstatable); ("b", File)].

(** A folder with two files and no sub-folder. *)
Definition ex_tree_flat : node := Dir [("a.txt", File); ("b.txt", File)].

(** A run that archives [ex_tree_flat] without any failure. *)
Definition ex_events_ok : list event :=
  [MkdirOk; Counted ex_tree_flat; OutputOpen; Entry "a.txt"; Entry "b.txt"; OutputClose].

Definition ex_completed : Server := (run ex_events_ok ex_start).2.

(** The job record at the end of that run. *)
Definition ex_completed_job : Job :=
  {| job_id := ex_jobId;
     folderPath := "/srv/data/photos";
     startTime := 1700000000000;
     progress := JInt 100;
     status := completed;
     filesProcessed := 2;
     totalFiles := 2;
     currentFile := "Completed";
     error := None;
     zipPath := Some ex_zipPath |}.

(** A run in which the write stream fails and then closes. *)
Definition ex_events_error_then_close : list event :=
  [MkdirOk; Counted ex_tree_flat; OutputOpen; Entry "a.txt"; OutputError "ENOSPC";
   OutputClose].

(** A run in which the archiver reports a failure after one entry. *)
Definition ex_events_archive_error : list event :=
  [MkdirOk; Counted ex_tree_flat; OutputOpen; Entry "a.txt"; ArchiveError "EACCES"].

(** A second request for the same folder, handled in the same millisecond. *)
Definition ex_jobId_second : string := "zip_1700000000000_b7m2c4w8e".

Definition ex_start_second : Task * Server :=
  start_zip ex_join ex_tempDir ex_jobId_second "/srv/data/photos" "photos" ex_start.2.

(** A folder with forty files and no sub-folder. *)
Definition ex_tree_forty : node :=
  Dir ((λ i, ("img" +:+ pretty (N.of_nat i) +:+ ".jpg", File)) <$> seq 1 40).

(** A run that has archived twenty-three of the forty. *)
Definition ex_events_23_of_40 : list event :=
  ([MkdirOk; Counted ex_tree_forty; OutputOpen]
   ++ ((λ i, Entry ("img" +:+ pretty (N.of_nat i) +:+ ".jpg")) <$> seq 1 23))%list.

(** A run in which the output closes after one of two files and the
    archiver then reports a failure. *)
Definition ex_events_close_then_error : list event :=
  [MkdirOk; Counted ex_tree_flat; OutputOpen; Entry "a.txt"; OutputClose;
   ArchiveError "EIO"].

(** Pairs [(filesProcessed, totalFiles)] with [totalFiles] from 1 to 120 and
    [filesProcessed] from 0 to [totalFiles + 2]. *)
Definition agreement_grid : list (N * N) :=
  t ← N.of_nat <$> seq 1 120;
  (λ f, (f, t)) <$> (N.of_nat <$> seq 0 (N.to_nat t + 3)).

(** ** Predicates on runs *)

(** The number of 'entry' events in a list of events. *)
Fixpoint entry_count (evs : list event) : N :=
  match evs with
  | [] => 0
  | Entry _ :: rest => 1 + entry_count rest
  | _ :: rest => entry_count rest
  end.

(** The percentage the 'entry' handler wrote last: nothing before the first
    entry, [Math.round(filesProcessed / totalFiles * 100)] from then on. *)
Definition shown (c : Closure) : jsnum :=
  if c_filesProcessed c =? 0 then JInt 0
  else percent (c_filesProcessed c) (c_totalFiles c).

(** A record that still has the counters [createJob] gave it. *)
Definition untouched (job : Job) : Prop :=
  progress job = JInt 0 ∧ filesProcessed job = 0 ∧ totalFiles job = 0.

(** What holds of the job [jobId] and of the call of [createZipWithProgress]
    that works on it, after the events [evs]. *)
Definition inv (jobId : string) (evs : list event) (cfg : Task * Server) : Prop :=
  match cfg.1 with
  | Setup id _ =>
      id = jobId
      ∧ ∀ job, getJob jobId cfg.2 = Some job →
          status job = initializing ∧ untouched job
  | CountingFiles id _ =>
      id = jobId
      ∧ ∀ job, getJob jobId cfg.2 = Some job →
          status job = counting ∧ untouched job
  | Abandoned =>
      ∀ job, getJob jobId cfg.2 = Some job → status job = error_ ∧ untouched job
  | Streaming c =>
      c_jobId c = jobId
      ∧ c_filesProcessed c ≤ entry_count evs
      ∧ ∀ job, getJob jobId cfg.2 = Some job →
          filesProcessed job = c_filesProcessed c
          ∧ totalFiles job = c_totalFiles c
          ∧ (status job = zipping ∨ status job = completed ∨ status job = error_)
          ∧ (status job = completed → progress job = JInt 100)
          ∧ (status job = zipping → progress job = shown c)
          ∧ (OutputClose ∉ evs → progress job = shown c)
  end.

(** [100 * filesProcessed / totalFiles] lies half-way between two
    integers. *)
Definition half_way (filesProcessed totalFiles : N) : Prop :=
  ((200 * Z.of_N filesProcessed + Z.of_N totalFiles)
   mod (2 * Z.of_N totalFiles) = 0)%Z.

(** What holds of [progress] in every status once the count is stored: it
    is the value of the last 'entry' handler (0 before the first), or the
    100 of the 'close' handler. *)
Definition progress_inv (evs : list event) (cfg : Task * Server) : Prop :=
  match cfg.1 with
  | Streaming c =>
      ∀ job, getJob (c_jobId c) cfg.2 = Some job →
        progress job = shown c ∨ (progress job = JInt 100 ∧ OutputClose ∈ evs)
  | _ => True
  end.

(** * The rest of the server *)

(** ** JavaScript values used below *)

(** The outcome of a call that may throw. *)
Inductive result (A : Type) :=
| Ok (a : A)
| Throw (err : Error).
Arguments Ok {A} a.
Arguments Throw {A} err.

(** [value || fallback] on a string that may be [undefined]: the empty
    string is falsy as well. *)
Definition or_default (value : option string) (fallback : string) : string :=
  match value with
  | Some EmptyString | None => fallback
  | Some v => v
  end.

(** The leading run of ['/'] removed: the alternative [^\/+] of the regular
    expression. *)
Fixpoint drop_leading_slashes (s : string) : string :=
  match s with
  | String c rest => if decide (c = "/"%char) then drop_leading_slashes rest else s
  | EmptyString => EmptyString
  end.

(** The trailing run of ['/'] removed: the alternative [\/+$]. *)
Fixpoint drop_trailing_slashes (s : string) : string :=
  match s with
  | String c rest =>
      match drop_trailing_slashes rest with
      | EmptyString => if decide (c = "/"%char) then EmptyString else String c EmptyString
      | rest' => String c rest'
      end
  | EmptyString => EmptyString
  end.

(** [relativePath.replace(/^\/+|\/+$/g, '')]. *)
Definition strip_slashes (relativePath : string) : string :=
  drop_trailing_slashes (drop_leading_slashes relativePath).

(** [Array.prototype.slice(start)] for an integer [start]: a negative start
    counts from the end, and both ends are clamped. *)
Definition slice_from {A} (start : Z) (l : list A) : list A :=
  if (start <? 0)%Z then drop (length l - Z.to_nat (- start)) l
  else drop (Z.to_nat start) l.

(** [s.split(sep)] for a one-character separator. *)
Fixpoint split_on (sep : ascii) (s : string) : list string :=
  match s with
  | EmptyString => [EmptyString]
  | String c rest =>
      if decide (c = sep) then EmptyString :: split_on sep rest
      else
        match split_on sep rest with
        | part :: parts => String c part :: parts
        | [] => [String c EmptyString]
        end
  end.

(** [parts.join(sep)]. *)
Fixpoint join_with (sep : string) (parts : list string) : string :=
  match parts with
  | [] => EmptyString
  | [part] => part
  | part :: rest => part +:+ sep +:+ join_with sep rest
  end.

(** The character occurs in the string. *)
Fixpoint contains_char (c : ascii) (s : string) : bool :=
  match s with
  | EmptyString => false
  | String c' rest => bool_decide (c' = c) || contains_char c rest
  end.

(** Every character of the string is the given one. *)
Fixpoint only_char (c : ascii) (s : string) : bool :=
  match s with
  | EmptyString => true
  | String c' rest => bool_decide (c' = c) && only_char c rest
  end.

(** ** getValidatedPath *)

Section Paths.

(** [path.resolve] and the constant [absoluteTargetDir]. *)
Variable path_resolve : string → string → string.
Variable absoluteTargetDir : string.

Definition getValidatedPath (relativePath : string) : result string :=
  let cleanPath := strip_slashes relativePath in
  let fullPath := path_resolve absoluteTargetDir cleanPath in
  if negb (String.prefix absoluteTargetDir fullPath)
  then Throw "Access denied: Path outside allowed directory"
  else Ok fullPath.

End Paths.

(** ** getFileViewInfo *)

(** The object literal [mimeTypes], key by key in the order of the source. *)
Definition mimeTypes_literal : list (string * string) :=
  [ (".jpg", "image/jpeg");
    (".jpeg", "image/jpeg");
    (".png", "image/png");
    (".gif", "image/gif");
    (".svg", "image/svg+xml");
    (".webp", "image/webp");
    (".bmp", "image/bmp");
    (".ico", "image/x-icon");
    (".mp4", "video/mp4");
    (".webm", "video/webm");
    (".ogg", "video/ogg");
    (".avi", "video/x-msvideo");
    (".mov", "video/quicktime");
    (".wmv", "video/x-ms-wmv");
    (".mp3", "audio/mpeg");
    (".wav", "audio/wav");
    (".ogg", "audio/ogg");
    (".aac", "audio/aac");
    (".flac", "audio/flac");
    (".pdf", "application/pdf");
    (".txt", "text/plain");
    (".md", "text/markdown");
    (".markdown", "text/markdown");
    (".js", "text/javascript");
    (".html", "text/html");
    (".htm", "text/html");
    (".css", "text/css");
    (".json", "application/json");
    (".xml", "application/xml");
    (".py", "text/x-python");
    (".java", "text/x-java-source");
    (".cpp", "text/x-c++src");
    (".c", "text/x-csrc");
    (".h", "text/x-chdr");
    (".php", "text/x-php");
    (".rb", "text/x-ruby");
    (".go", "text/x-go");
    (".rs", "text/x-rustsrc");
    (".sh", "text/x-shellscript");
    (".sql", "text/x-sql");
    (".yaml", "text/x-yaml");
    (".yml", "text/x-yaml");
    (".toml", "text/plain");
    (".ini", "text/plain");
    (".cfg", "text/plain");
    (".conf", "text/plain");
    (".log", "text/plain") ].

(** Reading a key of an object literal: of two entries with the same key the
    later one is the value. *)
Fixpoint literal_get (literal : list (string * string)) (key : string)
    : option string :=
  match literal with
  | [] => None
  | (k, v) :: rest =>
      match literal_get rest key with
      | Some later => Some later
      | None => if decide (k = key) then Some v else None
      end
  end.

Inductive ViewerType := unsupported | image | video | audio | pdf | text.

Global Instance ViewerType_eq_dec : EqDecision ViewerType.
Proof. solve_decision. Defined.

(** The chain of [startsWith] tests on a defined [mimeType]. *)
Definition viewerType_of (mimeType : string) : ViewerType :=
  if String.prefix "image/" mimeType then image
  else if String.prefix "video/" mimeType then video
  else if String.prefix "audio/" mimeType then audio
  else if decide (mimeType = "application/pdf") then pdf
  else if String.prefix "text/" mimeType
          || bool_decide (mimeType = "application/json")
          || bool_decide (mimeType = "application/xml") then text
  else unsupported.

Record ViewInfo := mkViewInfo {
  isViewable : bool;
  mimeType : string;
  viewerType : ViewerType;
  extension : string;
  basename : string
}.

Section Viewing.

(** [path.extname], [path.basename] with a suffix, and
    [String.prototype.toLowerCase].  [path.extname] returns the empty string
    or a string that starts with a dot, so the key read from the object
    literal is never the name of an inherited property. *)
Variable path_extname : string → string.
Variable path_basename_ext : string → string → string.
Variable toLowerCase : string → string.

Definition getFileViewInfo (filename : string) : ViewInfo :=
  let ext := toLowerCase (path_extname filename) in
  let basename := path_basename_ext filename ext in
  let mimeType := literal_get mimeTypes_literal ext in
  {| isViewable := bool_decide (is_Some mimeType);
     mimeType := default "application/octet-stream" mimeType;
     viewerType := match mimeType with
                   | Some m => viewerType_of m
                   | None => unsupported
                   end;
     extension := ext;
     basename := basename |}.

End Viewing.

(** ** The file routes *)

(** What [fs.stat] reports of an existing path. *)
Record Stats := mkStats {
  isDirectory : bool;
  size : N;
  mtime : string          (* [stats.mtime.toISOString()] *)
}.

(** The responses of /api/view/:filename. *)
Inductive ViewResponse :=
| ViewError (code : N) (message : string)
| ViewUnsupported (extension : string)    (* 415, viewerType 'unsupported' *)
| ViewStream (filePath contentType : string) (contentLength : N).

(** One element of the array sent by /api/files. *)
Record FileDetail := mkFileDetail {
  fd_name : string;
  fd_size : N;
  fd_isDirectory : bool;
  fd_isParent : bool;
  fd_modified : string;
  fd_isViewable : bool;
  fd_viewerType : ViewerType;
  fd_mimeType : option string;      (* present for files only *)
  fd_extension : option string;
  fd_basename : option string
}.

Inductive FilesResponse :=
| FilesError (code : N) (message : string)
| FilesJson (fileDetails : list FileDetail).

(** The responses of POST /api/start-zip/:foldername. *)
Inductive StartResponse :=
| StartError (code : N) (message : string)
| Started (jobId : string).               (* { jobId, status: 'started' } *)

(** [await Promise.all(items.map(f))]: every result, or the rejection. *)
Fixpoint promise_all {A B} (f : A → result B) (items : list A) : result (list B) :=
  match items with
  | [] => Ok []
  | item :: rest =>
      match f item, promise_all f rest with
      | Ok b, Ok bs => Ok (b :: bs)
      | Throw err, _ => Throw err
      | Ok _, Throw err => Throw err
      end
  end.

(** Time passing while one callback runs: the clock moves on, and no timer
    fires before the callback returns. *)
Definition advance_clock (ms : N) (s : Server) : Server :=
  mkServer (activeJobs s) (files s) (timers s) (now s + ms).

Section FileRoutes.

Variable path_resolve : string → string → string.
Variable path_join : string → string → string.
Variable path_extname : string → string.
Variable path_basename_ext : string → string → string.
Variable toLowerCase : string → string.
Variable absoluteTargetDir : string.
Variable tempDir : string.

(** The served tree at the time of the request: [stat] of a path ([None]:
    the path does not exist, [existsSync] is false and [fs.stat] throws) and
    [readdir] of a path. *)
Variable stat : string → option Stats.
Variable readdir : string → result (list string).

(** The message of the error [fs.stat] throws. *)
Variable stat_error : string → Error.

(** GET /api/view/:filename, with [req.query.path]. *)
Definition view_file (filename : string) (query_path : option string) : ViewResponse :=
  let currentPath := or_default query_path "" in
  match getValidatedPath path_resolve absoluteTargetDir currentPath with
  | Throw err => ViewError 500 err
  | Ok currentDir =>
      let filePath := path_join currentDir filename in
      match stat filePath with
      | None => ViewError 404 "File not found"
      | Some stats =>
          if isDirectory stats then ViewError 400 "Cannot view directory"
          else
            let viewInfo :=
              getFileViewInfo path_extname path_basename_ext toLowerCase filename in
            if negb (isViewable viewInfo) then ViewUnsupported (extension viewInfo)
            else
              let contentType :=
                if decide (viewerType viewInfo = text)
                then mimeType viewInfo +:+ "; charset=utf-8"
                else mimeType viewInfo in
              ViewStream filePath contentType (size stats)
      end
  end.

(** The element built for one name of the listing. *)
Definition file_detail (fullCurrentPath file : string) : result FileDetail :=
  let filePath := path_join fullCurrentPath file in
  match stat filePath with
  | None => Throw (stat_error filePath)
  | Some stats =>
      if isDirectory stats then
        Ok {| fd_name := file; fd_size := size stats; fd_isDirectory := true;
              fd_isParent := false; fd_modified := mtime stats;
              fd_isViewable := false; fd_viewerType := unsupported;
              fd_mimeType := None; fd_extension := None; fd_basename := None |}
      else
        let viewInfo :=
          getFileViewInfo path_extname path_basename_ext toLowerCase file in
        Ok {| fd_name := file; fd_size := size stats; fd_isDirectory := false;
              fd_isParent := false; fd_modified := mtime stats;
              fd_isViewable := isViewable viewInfo;
              fd_viewerType := viewerType viewInfo;
              fd_mimeType := Some (mimeType viewInfo);
              fd_extension := Some (extension viewInfo);
              fd_basename := Some (basename viewInfo) |}
  end.

(** The entry put in front of the listing of a sub-directory;
    [date_now] is [new Date().toISOString()]. *)
Definition parent_entry (date_now : string) : FileDetail :=
  {| fd_name := ".."; fd_size := 0; fd_isDirectory := true; fd_isParent := true;
     fd_modified := date_now; fd_isViewable := false; fd_viewerType := unsupported;
     fd_mimeType := None; fd_extension := None; fd_basename := None |}.

(** GET /api/files, with [req.query.path]. *)
Definition list_files (query_path : option string) (date_now : string) : FilesResponse :=
  let currentPath := or_default query_path "" in
  match getValidatedPath path_resolve absoluteTargetDir currentPath with
  | Throw _ => FilesError 500 "Failed to read directory"
  | Ok fullCurrentPath =>
      match readdir fullCurrentPath with
      | Throw _ => FilesError 500 "Failed to read directory"
      | Ok files =>
          match promise_all (file_detail fullCurrentPath) files with
          | Throw _ => FilesError 500 "Failed to read directory"
          | Ok fileDetails =>
              if decide (currentPath = "") then FilesJson fileDetails
              else FilesJson (parent_entry date_now :: fileDetails)
          end
      end
  end.

(** POST /api/start-zip/:foldername, with [req.query.path]; [random] is
    [Math.random().toString(36).substr(2, 9)].  The route reads the clock
    three times: for the job id, in [createJob], and in
    [createZipWithProgress] for the name of the ZIP file; [elapsed1] and
    [elapsed2] are the milliseconds between the readings.  The route
    answers after [createZipWithProgress] has run up to its first [await]:
    the one of [fs.mkdir] when the temp directory is missing
    ([temp_exists] is [fsSync.existsSync(tempDir)]), and otherwise the one
    of [countFilesRecursive], after the job was set to [counting]. *)
Definition start_zip_route (foldername : string) (query_path : option string)
    (random : string) (temp_exists : bool) (elapsed1 elapsed2 : N) (s : Server)
    : StartResponse * option Task * Server :=
  let currentPath := or_default query_path "" in
  match getValidatedPath path_resolve absoluteTargetDir currentPath with
  | Throw err => (StartError 500 err, None, s)
  | Ok currentDir =>
      let folderPath := path_join currentDir foldername in
      match stat folderPath with
      | None => (StartError 404 "Folder not found", None, s)
      | Some stats =>
          if negb (isDirectory stats)
          then (StartError 400 "Path is not a directory", None, s)
          else
            let jobId := "zip_" +:+ pretty (now s) +:+ "_" +:+ random in
            let s1 := createJob jobId folderPath (advance_clock elapsed1 s) in
            let s2 := advance_clock elapsed2 s1 in
            let zipPath := make_zipPath path_join tempDir foldername (now s2) in
            if temp_exists then
              (Started jobId, Some (CountingFiles jobId zipPath),
               updateJob jobId
                 {| u_progress := None; u_status := Some counting;
                    u_filesProcessed := None; u_totalFiles := None;
                    u_currentFile := Some "Counting files..."; u_zipPath := None |}
                 s2)
            else (Started jobId, Some (Setup jobId zipPath), s2)
      end
  end.

End FileRoutes.

(** ** POST /api/upload *)

(** One element of [req.files.files], as multer's memory storage gives it. *)
Record UploadedFile := mkUploadedFile {
  originalname : string;
  buffer : string;
  uploaded_size : N       (* [file.size] *)
}.

Inductive UploadResponse :=
| UploadError (code : N) (message : string)
| Uploaded (message : string) (savedFiles : list (string * N)).

(** How [fs.writeFile] rejects. It opens the path with flag ['w'], which
    creates or truncates the file, then writes the data: a failure to open
    leaves the path as it was, a failure while writing leaves the first
    [written] bytes of the data there. *)
Inductive WriteFailure :=
| OpenFails (err : Error)
| WriteFails (err : Error) (written : nat).

Definition failure_error (failure : WriteFailure) : Error :=
  match failure with
  | OpenFails err => err
  | WriteFails err _ => err
  end.

(** The disk after a rejected [fs.writeFile(filePath, data)]. *)
Definition after_failure (failure : WriteFailure) (filePath data : string)
    (disk : gmap string string) : gmap string string :=
  match failure with
  | OpenFails _ => disk
  | WriteFails _ written => <[filePath := String.substring 0 written data]> disk
  end.

Section Upload.

Variable path_resolve : string → string → string.
Variable path_join : string → string → string.
Variable absoluteTargetDir : string.

(** [fsSync.existsSync] on the upload directory, and the paths for which
    [fs.writeFile] rejects, with the way it does. *)
Variable existsSync : string → bool.
Variable write_failure : string → option WriteFailure.

(** The [for] loop over the uploaded files; the disk maps a path to the
    bytes written there. *)
Fixpoint save_files (uploadDir : string) (files : list UploadedFile)
    (savedFiles : list (string * N)) (disk : gmap string string)
    : result (list (string * N)) * gmap string string :=
  match files with
  | [] => (Ok savedFiles, disk)
  | file :: rest =>
      let filePath := path_join uploadDir (originalname file) in
      match write_failure filePath with
      | Some failure =>
          (Throw (failure_error failure),
           after_failure failure filePath (buffer file) disk)
      | None =>
          save_files uploadDir rest
            (savedFiles ++ [(originalname file, uploaded_size file)])
            (<[filePath := buffer file]> disk)
      end
  end.

(** The callback given to multer: [err] is multer's error, [files] is
    [req.files.files] and [body_currentPath] is [req.body.currentPath]. *)
Definition upload (err : option Error) (files : option (list UploadedFile))
    (body_currentPath : option string) (disk : gmap string string)
    : UploadResponse * gmap string string :=
  match err with
  | Some e => (UploadError 500 ("Upload processing failed: " +:+ e), disk)
  | None =>
      match files with
      | None | Some [] => (UploadError 400 "No files uploaded", disk)
      | Some files =>
          let currentPath := or_default body_currentPath "" in
          match getValidatedPath path_resolve absoluteTargetDir currentPath with
          | Throw e => (UploadError 500 ("Failed to save files: " +:+ e), disk)
          | Ok uploadDir =>
              if negb (existsSync uploadDir)
              then (UploadError 500
                      ("Upload directory does not exist: " +:+ uploadDir), disk)
              else
                match save_files uploadDir files [] disk with
                | (Throw e, disk') =>
                    (UploadError 500 ("Failed to save files: " +:+ e), disk')
                | (Ok savedFiles, disk') =>
                    (Uploaded "Files uploaded successfully" savedFiles, disk')
                end
          end
      end
  end.

End Upload.

(** ** class Logger: the memory buffer *)

(** The parts of an Express request the logger reads. *)
Record Request := mkRequest {
  req_ip : option string;
  req_remoteAddress : option string;     (* req.connection?.remoteAddress *)
  req_userAgent : option string;         (* req.get('User-Agent') *)
  req_method : string;
  req_originalUrl : option string;
  req_url : string
}.

Record LogEntry := mkLogEntry {
  log_timestamp : string;
  log_level : string;
  log_ip : string;
  log_method : string;
  log_url : string;
  log_userAgent : string;
  log_message : string;
  log_error : option (string * string)   (* message and stack *)
}.

Definition maxBufferSize : nat := 1000.

(** The object [logEntry] built by [log]. *)
Definition logEntry (timestamp level message : string) (req : option Request)
    (err : option (string * string)) : LogEntry :=
  {| log_timestamp := timestamp;
     log_level := level;
     log_ip := match req with
               | Some r => or_default (req_ip r)
                             (or_default (req_remoteAddress r) "unknown")
               | None => "system"
               end;
     log_method := match req with Some r => req_method r | None => "" end;
     log_url := match req with
                | Some r => or_default (req_originalUrl r) (req_url r)
                | None => ""
                end;
     log_userAgent := match req with
                      | Some r => or_default (req_userAgent r) "unknown"
                      | None => "system"
                      end;
     log_message := message;
     log_error := err |}.

(** What [log] does to [logBuffer]: [push], then [shift] when the buffer has
    grown beyond [maxBufferSize]. *)
Definition buffer_log (entry : LogEntry) (logBuffer : list LogEntry) : list LogEntry :=
  let pushed := (logBuffer ++ [entry])%list in
  if decide (maxBufferSize < length pushed)%nat then tail pushed else pushed.

(** [getRecentLogs(limit)]: [this.logBuffer.slice(-limit)]. *)
Definition getRecentLogs (limit : Z) (logBuffer : list LogEntry) : list LogEntry :=
  slice_from (- limit) logBuffer.

(** A value inside a template literal. *)
Definition template (value : option string) : string :=
  match value with
  | Some v => v
  | None => "undefined"
  end.

(** [statusLevel] in the request-logging middleware. *)
Definition statusLevel (statusCode : N) : string :=
  if 400 <=? statusCode then "ERROR"
  else if 300 <=? statusCode then "WARN"
  else "SUCCESS".

(** The entry the middleware logs before it calls [next()]. *)
Definition request_started (timestamp : string) (req : Request) : LogEntry :=
  logEntry timestamp "INFO"
    (req_method req +:+ " " +:+ template (req_originalUrl req) +:+ " - Request started")
    (Some req) None.

(** The entry the middleware's [res.end] logs; [duration] is
    [Date.now() - startTime]. *)
Definition request_ended (timestamp : string) (req : Request)
    (statusCode duration : N) : LogEntry :=
  logEntry timestamp (statusLevel statusCode)
    (req_method req +:+ " " +:+ template (req_originalUrl req) +:+ " - "
     +:+ pretty statusCode +:+ " (" +:+ pretty duration +:+ "ms)")
    (Some req) None.

(** A request GET /api/logs from the logging middleware to the end of the
    response; [parsed] is [parseInt(req.query.limit)], [None] standing for
    [NaN], and the three timestamps are those of the three calls of [log].
    The middleware logs the request and calls [next()]; the handler takes
    the recent entries, logs the access and calls [res.json], which ends
    the response with the status code 200 the handler has left in place
    and so runs the middleware's [res.end].  (A conditional request that
    Express answers 304 is outside the model.)  The result is the array
    sent and the buffer afterwards. *)
Definition logs_route (parsed : option Z) (started accessed ended : string)
    (duration : N) (req : Request) (logBuffer : list LogEntry)
    : list LogEntry * list LogEntry :=
  let logBuffer := buffer_log (request_started started req) logBuffer in
  let limit := match parsed with
               | None | Some 0%Z => 100%Z
               | Some n => n
               end in
  let logs := getRecentLogs limit logBuffer in
  let logBuffer :=
    buffer_log
      (logEntry accessed "INFO"
         ("Logs accessed: returning " +:+ pretty (N.of_nat (length logs))
          +:+ " entries")
         (Some req) None)
      logBuffer in
  (logs, buffer_log (request_ended ended req 200 duration) logBuffer).

(** ** class FileServer (the browser side): navigation and elapsed time *)

(** The value [navigateInto(foldername)] assigns to [this.currentPath]. *)
Definition navigateInto (foldername currentPath : string) : string :=
  if decide (currentPath = "") then foldername
  else currentPath +:+ "/" +:+ foldername.

(** The value of [this.currentPath] after [navigateUp()]: at the root the
    method returns early; otherwise the last part is popped. *)
Definition navigateUp (currentPath : string) : string :=
  if decide (currentPath = "") then currentPath
  else join_with "/" (removelast (split_on "/" currentPath)).

(** [formatElapsedTime(seconds)] on a whole number of seconds. *)
Definition formatElapsedTime (seconds : N) : string :=
  if seconds <? 60 then pretty seconds +:+ "s"
  else if seconds <? 3600 then
    pretty (seconds / 60) +:+ "m " +:+ pretty (seconds mod 60) +:+ "s"
  else
    pretty (seconds / 3600) +:+ "h " +:+ pretty ((seconds mod 3600) / 60) +:+ "m".

(** ** Further predicates on runs *)

(** The job a call of [createZipWithProgress] works on. *)
Definition task_jobId (task : Task) : option string :=
  match task with
  | Setup jobId _ | CountingFiles jobId _ => Some jobId
  | Streaming c => Some (c_jobId c)
  | Abandoned => None
  end.

(** ** Concrete inputs for the properties of the rest of the server *)

(** The loop of a POSIX [path.resolve]: empty parts and [.] are skipped,
    [..] drops the part before it. *)
Fixpoint resolve_parts (resolved parts : list string) : list string :=
  match parts with
  | [] => resolved
  | part :: rest =>
      if decide (part = "" ∨ part = ".") then resolve_parts resolved rest
      else if decide (part = "..") then resolve_parts (removelast resolved) rest
      else resolve_parts (resolved ++ [part]) rest
  end.

(** [path.resolve(dir, rel)] for an absolute POSIX [dir] and a relative
    [rel]. *)
Definition ex_resolve (dir rel : string) : string :=
  "/" +:+ join_with "/" (resolve_parts [] (split_on "/" dir ++ split_on "/" rel)).

Definition ex_targetDir : string := "/srv/data".

(** [path.extname] of a plain file name with a non-empty stem: what starts
    at the last dot. *)
Definition ex_extname (filename : string) : string :=
  match split_on "." filename with
  | [] | [_] => ""
  | parts => "." +:+ List.last parts ""
  end.

(** [toLowerCase] on ASCII letters. *)
Definition ex_lower_char (c : ascii) : ascii :=
  let n := N_of_ascii c in
  if (65 <=? n) && (n <=? 90) then ascii_of_N (n + 32) else c.

Fixpoint ex_toLowerCase (s : string) : string :=
  match s with
  | EmptyString => EmptyString
  | String c rest => String (ex_lower_char c) (ex_toLowerCase rest)
  end.

(** [path.basename(filename, ext)] of a plain file name: the suffix [ext] is
    cut off when the name ends with it. *)
Definition ex_basename_ext (filename ext : string) : string :=
  let stem := String.substring 0 (String.length filename - String.length ext) filename in
  if decide (stem +:+ ext = filename) then stem else filename.

(** A served directory with a text file, a picture, an archive, a sub-folder
    and a name whose target is gone. *)
Definition ex_stat (path : string) : option Stats :=
  if decide (path = "/srv/data/notes.txt") then Some (mkStats false 120 "2024-01-01T00:00:00.000Z")
  else if decide (path = "/srv/data/cat.PNG") then Some (mkStats false 2048 "2024-01-02T00:00:00.000Z")
  else if decide (path = "/srv/data/backup.tar") then Some (mkStats false 4096 "2024-01-03T00:00:00.000Z")
  else if decide (path = "/srv/data/photos") then Some (mkStats true 4096 "2024-01-04T00:00:00.000Z")
  else if decide (path = "/srv/data/photos/a.txt") then Some (mkStats false 5 "2024-01-05T00:00:00.000Z")
  else if decide (path = "/srv/data") then Some (mkStats true 4096 "2024-01-06T00:00:00.000Z")
  else None.

Definition ex_readdir (path : string) : result (list string) :=
  if decide (path = "/srv/data")
  then Ok ["notes.txt"; "cat.PNG"; "backup.tar"; "photos"]
  else if decide (path = "/srv/data/photos") then Ok ["a.txt"; "dangling"]
  else Throw "ENOENT".

Definition ex_stat_error (path : string) : Error :=
  "ENOENT: no such file or directory, stat '" +:+ path +:+ "'".

(** The disk [after] holds the files [written] on top of the disk [before]:
    each written file's buffer is at its path unless a later file of the
    list was written to the same path, and every other path is as it was. *)
Definition holds_uploads (path_join : string → string → string) (uploadDir : string)
    (written : list UploadedFile) (before after : gmap string string) : Prop :=
  (∀ pre file post,
     written = (pre ++ file :: post)%list →
     (∀ later, later ∈ post →
        path_join uploadDir (originalname later)
        ≠ path_join uploadDir (originalname file)) →
     after !! path_join uploadDir (originalname file) = Some (buffer file))
  ∧ (∀ path,
       (∀ file, file ∈ written → path_join uploadDir (originalname file) ≠ path) →
       after !! path = before !! path).

(** Two uploads of one name; a path that cannot be opened and one at which
    the disk runs full after two bytes. *)
Definition ex_uploads : list UploadedFile :=
  [ mkUploadedFile "a.txt" "first" 5;
    mkUploadedFile "b.txt" "other" 5;
    mkUploadedFile "a.txt" "second" 6 ].

Definition ex_write_failure (path : string) : option WriteFailure :=
  if decide (path = "/srv/data/locked.bin")
  then Some (OpenFails "EACCES: permission denied")
  else if decide (path = "/srv/data/huge.bin")
  then Some (WriteFails "ENOSPC: no space left on device" 2)
  else None.

Definition ex_existsSync (path : string) : bool := bool_decide (is_Some (ex_stat path)).

(** * Properties *)

(** ** The tracker's methods, field by field *)

Lemma updateJob_missing jobId updates s :
  getJob jobId s = None → updateJob jobId updates s = s.
Proof. unfold getJob, updateJob. by intros ->. Qed.

Lemma getJob_updateJob jobId updates s :
  getJob jobId (updateJob jobId updates s)
  = (λ job, Object_assign job updates) <$> getJob jobId s.
Proof.
  unfold getJob, updateJob.
  destruct (activeJobs s !! jobId) as [job|] eqn:E; simpl.
  - by rewrite lookup_insert_eq.
  - by rewrite E.
Qed.

Lemma getJob_updateJob_ne jobId other updates s :
  jobId ≠ other → getJob other (updateJob jobId updates s) = getJob other s.
Proof.
  intros Hne. unfold getJob, updateJob.
  destruct (activeJobs s !! jobId); simpl; [by rewrite lookup_insert_ne|done].
Qed.

Lemma updateJob_frame jobId updates s :
  files (updateJob jobId updates s) = files s
  ∧ timers (updateJob jobId updates s) = timers s
  ∧ now (updateJob jobId updates s) = now s.
Proof. unfold updateJob. by destruct (activeJobs s !! jobId). Qed.

Lemma errorJob_missing jobId err s :
  getJob jobId s = None → errorJob jobId err s = s.
Proof. unfold getJob, errorJob. by intros ->. Qed.

Lemma getJob_errorJob jobId err s job :
  getJob jobId s = Some job →
  ∃ job', getJob jobId (errorJob jobId err s) = Some job'
    ∧ status job' = error_ ∧ error job' = Some err
    ∧ progress job' = progress job
    ∧ filesProcessed job' = filesProcessed job
    ∧ totalFiles job' = totalFiles job
    ∧ zipPath job' = zipPath job.
Proof.
  unfold getJob, errorJob. intros ->. simpl.
  rewrite lookup_insert_eq. eexists. split; [done|]. by simpl.
Qed.

Lemma errorJob_frame jobId err s :
  files (errorJob jobId err s) = files s ∧ now (errorJob jobId err s) = now s.
Proof. unfold errorJob. by destruct (activeJobs s !! jobId). Qed.

Lemma errorJob_timers jobId err s job :
  getJob jobId s = Some job →
  timers (errorJob jobId err s) = (timers s ++ [(now s + 30000, DeleteJob jobId)])%list.
Proof. unfold getJob, errorJob. by intros ->. Qed.

(** ** Timers *)

Lemma fire_frame (l : list (N * action)) s :
  timers (foldl (λ s' p, run_action (snd p) s') s l) = timers s
  ∧ now (foldl (λ s' p, run_action (snd p) s') s l) = now s.
Proof.
  revert s. induction l as [|[t a] l IH]; intros s; simpl; [done|].
  destruct (IH (run_action a s)) as [-> ->]. by destruct a.
Qed.

Lemma fire_files (l : list (N * action)) s zp :
  zp ∈ files (foldl (λ s' p, run_action (snd p) s') s l)
  ↔ zp ∈ files s ∧ ∀ t, (t, UnlinkFile zp) ∉ l.
Proof.
  revert s. induction l as [|[t a] l IH]; intros s; simpl.
  - split; [intros H; split; [done|intros t Hin; inversion Hin]|by intros [H _]].
  - rewrite IH. destruct a as [jobId|path]; simpl.
    + split.
      * intros [H1 H2]. split; [done|]. intros t' Hin.
        apply elem_of_cons in Hin as [Heq|Hin]; [done|by eapply H2].
      * intros [H1 H2]. split; [done|]. intros t' Hin. eapply H2. by right.
    + split.
      * intros [H1 H2]. apply elem_of_difference in H1 as [H1 H3].
        split; [done|]. intros t' Hin.
        apply elem_of_cons in Hin as [Heq|Hin]; [|by eapply H2].
        apply H3. inversion Heq. set_solver.
      * intros [H1 H2]. split.
        -- apply elem_of_difference. split; [done|].
           intros Heq%elem_of_singleton. subst path. eapply (H2 t). by left.
        -- intros t' Hin. eapply H2. by right.
Qed.

Lemma fire_jobs_keep (l : list (N * action)) s jobId :
  (∀ t, (t, DeleteJob jobId) ∉ l) →
  getJob jobId (foldl (λ s' p, run_action (snd p) s') s l) = getJob jobId s.
Proof.
  revert s. induction l as [|[t a] l IH]; intros s Hno; simpl; [done|].
  rewrite IH; [|intros t' Hin; eapply Hno; by right].
  destruct a as [other|path]; simpl; [|done].
  unfold getJob; simpl. apply lookup_delete_ne. intros ->. eapply (Hno t). by left.
Qed.

Lemma fire_jobs_sub (l : list (N * action)) s jobId job :
  getJob jobId (foldl (λ s' p, run_action (snd p) s') s l) = Some job →
  getJob jobId s = Some job.
Proof.
  revert s. induction l as [|[t a] l IH]; intros s; simpl; [done|].
  intros H%IH. destruct a as [other|path]; simpl in H; [|done].
  unfold getJob in *; simpl in H. by apply lookup_delete_Some in H as [_ H].
Qed.

Lemma fire_jobs_evict (l : list (N * action)) s jobId t :
  (t, DeleteJob jobId) ∈ l →
  getJob jobId (foldl (λ s' p, run_action (snd p) s') s l) = None.
Proof.
  revert s. induction l as [|[t' a] l IH]; intros s Hin; [inversion Hin|].
  apply elem_of_cons in Hin as [Heq|Hin]; simpl; [|by apply IH].
  inversion Heq; subst.
  destruct (getJob jobId (foldl _ _ l)) as [job|] eqn:E; [|done].
  apply fire_jobs_sub in E. unfold getJob in E; simpl in E.
  by rewrite lookup_delete_eq in E.
Qed.

Lemma tick_frame ms s :
  timers (tick ms s) = filter (λ p, ¬ (p.1 ≤ now s + ms)) (timers s)
  ∧ now (tick ms s) = now s + ms.
Proof.
  unfold tick.
  by destruct (fire_frame (filter (λ p, p.1 ≤ now s + ms) (timers s))
                 (mkServer (activeJobs s) (files s)
                    (filter (λ p, ¬ (p.1 ≤ now s + ms)) (timers s)) (now s + ms)))
    as [-> ->].
Qed.

Lemma tick_files ms s zp :
  zp ∈ files (tick ms s)
  ↔ zp ∈ files s ∧ ∀ t, (t, UnlinkFile zp) ∈ timers s → ¬ (t ≤ now s + ms).
Proof.
  unfold tick. rewrite fire_files. simpl. split; intros [H1 H2]; (split; [done|]).
  - intros t Hin Hle. apply (H2 t). apply list_elem_of_filter. by split.
  - intros t [Hle Hin]%list_elem_of_filter. by apply (H2 t).
Qed.

Lemma tick_jobs_keep ms s jobId :
  (∀ t, (t, DeleteJob jobId) ∈ timers s → ¬ (t ≤ now s + ms)) →
  getJob jobId (tick ms s) = getJob jobId s.
Proof.
  intros Hno. unfold tick. rewrite fire_jobs_keep; [done|].
  intros t [Hle Hin]%list_elem_of_filter. by apply (Hno t).
Qed.

Lemma tick_jobs_sub ms s jobId job :
  getJob jobId (tick ms s) = Some job → getJob jobId s = Some job.
Proof. unfold tick. by intros H%fire_jobs_sub. Qed.

Lemma tick_jobs_evict ms s jobId t :
  (t, DeleteJob jobId) ∈ timers s → t ≤ now s + ms →
  getJob jobId (tick ms s) = None.
Proof.
  intros Hin Hle. unfold tick. apply (fire_jobs_evict _ _ _ t).
  apply list_elem_of_filter. by split.
Qed.

(** ** GET /api/download-zip/:jobId *)

(** C7. The download route answers 404 "Job not found" for every identifier
    the registry does not hold, an evicted job being answered exactly like
    an identifier that was never registered; it answers 400 "Job not
    completed" for every registered job whose status is not [completed]; and
    whenever it starts a download the job is registered with status
    [completed] (and the file it sends is the job's [zipPath], present on
    disk). *)
Theorem C7_download_zip_responses
    (path_basename : string → string) (jobId : string) (s : Server) :
  (getJob jobId s = None →
     download_zip path_basename jobId s = JsonError 404 "Job not found")
  ∧ (∀ never : Server, getJob jobId never = None →
       download_zip path_basename jobId (run_action (DeleteJob jobId) s)
       = download_zip path_basename jobId never)
  ∧ (∀ job, getJob jobId s = Some job → status job ≠ completed →
       download_zip path_basename jobId s = JsonError 400 "Job not completed")
  ∧ (∀ zp filename, download_zip path_basename jobId s = Download zp filename →
       ∃ job, getJob jobId s = Some job ∧ status job = completed
              ∧ zipPath job = Some zp ∧ zp ∈ files s).
Proof.
  repeat split.
  - unfold download_zip. by intros ->.
  - intros never Hnever. unfold download_zip. rewrite Hnever.
    unfold getJob; simpl. by rewrite lookup_delete_eq.
  - intros job Hjob Hst. unfold download_zip. rewrite Hjob.
    by destruct (decide (status job ≠ completed)).
  - intros zp filename. unfold download_zip.
    destruct (getJob jobId s) as [job|]; [|done].
    destruct (decide (status job ≠ completed)) as [|Hst]; [done|].
    destruct (zipPath job) as [zp'|] eqn:Hzp; [|done].
    destruct (decide (zp' ∈ files s)); [|done].
    intros [= <- _]. exists job. apply dec_stable in Hst. by repeat split.
Qed.

Lemma C7_download_zip_responses_witness :
  download_zip ex_basename "zip_0_unknown" ex_completed = JsonError 404 "Job not found"
  ∧ download_zip ex_basename ex_jobId
      (run [MkdirOk; Counted ex_tree_flat; OutputOpen; Entry "a.txt"] ex_start).2
    = JsonError 400 "Job not completed".
Proof.
  split.
  - apply (C7_download_zip_responses ex_basename "zip_0_unknown" ex_completed).
    vm_compute. reflexivity.
  - pose proof (C7_download_zip_responses ex_basename ex_jobId
      (run [MkdirOk; Counted ex_tree_flat; OutputOpen; Entry "a.txt"] ex_start).2)
      as (_ & _ & H & _).
    eapply H; [vm_compute; reflexivity | vm_compute; discriminate].
Defined.

(** C10. When a completed job's archive has been sent once without error,
    [res.download]'s callback sets a five-second timer that unlinks the
    file and touches nothing else: the job record stays as it is.  Until the
    five seconds are over the file is still there (no earlier cleanup being
    pending); from then on it is gone, and as long as the job is registered
    (which it is whenever no eviction timer was pending for it) a second
    download request is answered 404 "ZIP file not found" while the progress
    route still returns the job, status [completed]. *)
Theorem C10_second_download_after_cleanup
    (path_basename : string → string) (jobId zp : string) (job : Job) (s : Server) :
  getJob jobId s = Some job → status job = completed →
  zipPath job = Some zp → zp ∈ files s →
  download_zip path_basename jobId s = Download zp (path_basename zp)
  ∧ getJob jobId (download_done zp None s) = Some job
  ∧ timers (download_done zp None s)
    = (timers s ++ [(now s + 5000, UnlinkFile zp)])%list
  ∧ ∀ ms,
      (ms < 5000 → (∀ t, (t, UnlinkFile zp) ∉ timers s) →
         zp ∈ files (tick ms (download_done zp None s)))
      ∧ (5000 ≤ ms → zp ∉ files (tick ms (download_done zp None s)))
      ∧ ((∀ t, (t, DeleteJob jobId) ∉ timers s) →
           getJob jobId (tick ms (download_done zp None s)) = Some job)
      ∧ (5000 ≤ ms →
           getJob jobId (tick ms (download_done zp None s)) = Some job →
           download_zip path_basename jobId (tick ms (download_done zp None s))
           = JsonError 404 "ZIP file not found"
           ∧ zip_progress jobId (tick ms (download_done zp None s)) = JsonJob job
           ∧ status job = completed).
Proof.
  intros Hjob Hst Hzp Hin.
  assert (Hgone : ∀ ms, 5000 ≤ ms → zp ∉ files (tick ms (download_done zp None s))).
  { intros ms Hms [_ H]%tick_files. apply (H (now s + 5000)); simpl; [|lia].
    apply elem_of_app. right. by left. }
  split; [|split; [done|split; [done|]]].
  - unfold download_zip. rewrite Hjob.
    destruct (decide (status job ≠ completed)); [done|].
    rewrite Hzp. by destruct (decide (zp ∈ files s)).
  - intros ms. repeat split.
    + intros Hms Hno. apply tick_files. split; [done|]. simpl.
      intros t [Hold|Hnew]%elem_of_app; [by apply Hno in Hold|].
      apply list_elem_of_singleton in Hnew as [= -> ]. lia.
    + by apply Hgone.
    + intros Hno. rewrite tick_jobs_keep; [done|]. simpl.
      intros t [Hold|Hnew]%elem_of_app; [by apply Hno in Hold|].
      by apply list_elem_of_singleton in Hnew.
    + unfold download_zip. rewrite H0.
      destruct (decide (status job ≠ completed)); [done|]. rewrite Hzp.
      destruct (decide (zp ∈ files _)) as [Hin'|]; [|done].
      by apply Hgone in Hin'.
    + unfold zip_progress. by rewrite H0.
    + done.
Qed.

Lemma C10_second_download_after_cleanup_witness :
  download_zip ex_basename ex_jobId ex_completed
  = Download ex_zipPath "photos_1700000000000.zip"
  ∧ download_zip ex_basename ex_jobId
      (tick 5000 (download_done ex_zipPath None ex_completed))
    = JsonError 404 "ZIP file not found"
  ∧ zip_progress ex_jobId (tick 5000 (download_done ex_zipPath None ex_completed))
    = JsonJob ex_completed_job.
Proof.
  assert (H1 : getJob ex_jobId ex_completed = Some ex_completed_job)
    by (vm_compute; reflexivity).
  assert (H2 : status ex_completed_job = completed) by reflexivity.
  assert (H3 : zipPath ex_completed_job = Some ex_zipPath) by reflexivity.
  assert (H4 : ex_zipPath ∈ files ex_completed).
  { apply (bool_decide_unpack (ex_zipPath ∈ files ex_completed)).
    vm_compute. exact I. }
  destruct (C10_second_download_after_cleanup ex_basename ex_jobId ex_zipPath
              ex_completed_job ex_completed H1 H2 H3 H4) as (Ha & _ & _ & Hb).
  split; [exact Ha|].
  destruct (Hb 5000) as (_ & _ & Hkeep & Hsecond).
  assert (Hreg : getJob ex_jobId (tick 5000 (download_done ex_zipPath None ex_completed))
                 = Some ex_completed_job).
  { apply Hkeep. intros t Hin. vm_compute in Hin. inversion Hin. }
  destruct (Hsecond ltac:(lia) Hreg) as (Hc & Hd & _). by split.
Defined.

(** ** updateJob and the terminal states *)

(** C2, as the code has it. [updateJob] returns the registry unchanged when
    the job is missing; when the job is registered it merges the given
    fields into the record whatever the record's status is, terminal or
    not, and touches no other job, no file, no timer and not the clock. *)
Theorem C2_updateJob_merges_at_any_status
    (jobId : string) (updates : Updates) (s : Server) :
  (getJob jobId s = None → updateJob jobId updates s = s)
  ∧ (∀ job, getJob jobId s = Some job →
       getJob jobId (updateJob jobId updates s) = Some (Object_assign job updates))
  ∧ (∀ other, jobId ≠ other →
       getJob other (updateJob jobId updates s) = getJob other s)
  ∧ files (updateJob jobId updates s) = files s
  ∧ timers (updateJob jobId updates s) = timers s
  ∧ now (updateJob jobId updates s) = now s.
Proof.
  split; [apply updateJob_missing|].
  split; [intros job Hjob; by rewrite getJob_updateJob, Hjob|].
  split; [intros other Hne; by apply getJob_updateJob_ne|].
  apply updateJob_frame.
Qed.

Lemma C2_updateJob_merges_at_any_status_witness :
  updateJob "zip_0_unknown" no_updates ex_completed = ex_completed
  ∧ getJob ex_jobId
      (updateJob ex_jobId
         (mkUpdates (Some (JInt 50)) (Some zipping) (Some 1) None (Some "a.txt") None)
         ex_completed)
    = Some (Object_assign ex_completed_job
         (mkUpdates (Some (JInt 50)) (Some zipping) (Some 1) None (Some "a.txt") None)).
Proof.
  split.
  - apply (C2_updateJob_merges_at_any_status "zip_0_unknown" no_updates ex_completed).
    vm_compute. reflexivity.
  - apply (C2_updateJob_merges_at_any_status ex_jobId
             (mkUpdates (Some (JInt 50)) (Some zipping) (Some 1) None (Some "a.txt") None)
             ex_completed).
    vm_compute. reflexivity.
Defined.

(** C2 fails as stated: the write stream reports an error, which puts the
    job into the terminal state [error]; the stream then closes, and the
    'close' handler's [updateJob] moves the same job to [completed]. *)
Lemma C2_counterexample :
  (status <$> getJob ex_jobId
     (run [MkdirOk; Counted ex_tree_flat; OutputOpen; Entry "a.txt"; OutputError "ENOSPC"]
        ex_start).2) = Some error_
  ∧ (status <$> getJob ex_jobId (run ex_events_error_then_close ex_start).2)
    = Some completed
  ∧ ¬ (∀ jobId updates s job,
         getJob jobId s = Some job → terminal (status job) = true →
         getJob jobId (updateJob jobId updates s) = Some job).
Proof.
  split; [vm_compute; reflexivity|]. split; [vm_compute; reflexivity|].
  intros H.
  specialize (H ex_jobId
    (mkUpdates (Some (JInt 50)) (Some zipping) (Some 1) None (Some "a.txt") None)
    ex_completed ex_completed_job).
  vm_compute in H. specialize (H eq_refl eq_refl). discriminate H.
Qed.

(** ** countFilesRecursive *)

Lemma countFilesRecursive_Dir items :
  countFilesRecursive (Dir items) = count_loop items 0.
Proof.
  simpl. generalize 0. induction items as [|[name item] rest IH]; intros count; simpl.
  - done.
  - destruct item; by rewrite ?IH.
Qed.

(** A [stat] that throws ends the walk of the directory that lists the
    entry: what follows it in the listing is not looked at. *)
Lemma count_loop_stat_throws name rest count :
  count_loop ((name, Unstatable) :: rest) count = count.
Proof. done. Qed.

(** A sub-directory that cannot be listed counts for nothing, and the walk
    goes on with the next entry. *)
Lemma count_loop_readdir_throws name rest count :
  count_loop ((name, UnreadableDir) :: rest) count = count_loop rest count.
Proof. simpl. by rewrite N.add_0_r. Qed.

(** C8 on a folder whose listing is [a] (stat throws) then [b] (a file):
    skipping exactly [a] leaves one file to count, the code returns 0. *)
Theorem C8_stat_failure_drops_following_entries :
  countFilesRecursive ex_tree_stat_fails = 0
  ∧ non_directory_entries ex_tree_stat_fails = 1.
Proof. split; reflexivity. Qed.

Lemma count_loop_acc items count :
  count_loop items count = count + count_loop items 0.
Proof.
  revert count. induction items as [|[name item] rest IH]; intros count; simpl.
  - lia.
  - destruct item; try lia.
    + rewrite IH, (IH (0 + 1)). lia.
    + rewrite IH, (IH (0 + _)). lia.
    + rewrite IH, (IH (0 + _)). lia.
Qed.

(** On a folder that can be read everywhere the function returns the number
    of non-directory entries at every depth. *)
Lemma countFilesRecursive_readable items :
  readable (Dir items) = true →
  countFilesRecursive (Dir items) = non_directory_entries (Dir items).
Proof.
  enough (H : ∀ d, match d with
                   | Dir items => readable d = true →
                       countFilesRecursive d = non_directory_entries d
                   | _ => True
                   end) by apply (H (Dir items)).
  clear items. induction d as [|items IH| |] using node_tree_ind; try done.
  rewrite countFilesRecursive_Dir. simpl.
  induction IH as [|[name item] rest Hitem _ IHrest]; [done|].
  intros [Hr Hrest]%andb_prop. specialize (IHrest Hrest).
  simpl. rewrite <- IHrest.
  destruct item as [|sub| |]; simpl in *; try done.
  - rewrite count_loop_acc. lia.
  - rewrite count_loop_acc. rewrite <- (Hitem Hr).
    fold (count_loop sub 0). lia.
Qed.

(** Whatever fails, the function never counts more than there is. *)
Lemma countFilesRecursive_le d :
  countFilesRecursive d ≤ non_directory_entries d.
Proof.
  induction d as [|items IH| |] using node_tree_ind; simpl; try lia.
  fold (count_loop items 0).
  induction IH as [|[name item] rest Hitem _ IHrest]; [simpl; lia|].
  simpl. destruct item; simpl in *; try lia.
  - rewrite count_loop_acc. lia.
  - rewrite count_loop_acc. lia.
  - rewrite count_loop_acc. lia.
Qed.

(** ** The name of the archive file *)

Lemma list_ascii_of_string_app (a b : string) :
  String.list_ascii_of_string (a +:+ b)
  = (String.list_ascii_of_string a ++ String.list_ascii_of_string b)%list.
Proof. induction a as [|c a IH]; simpl; [done|by rewrite IH]. Qed.

Lemma string_app_inj_r (a b c : string) : a +:+ c = b +:+ c → a = b.
Proof.
  intros H. apply (f_equal String.list_ascii_of_string) in H.
  rewrite !list_ascii_of_string_app in H. apply app_inv_tail in H.
  rewrite <- (String.string_of_list_ascii_of_string a).
  rewrite <- (String.string_of_list_ascii_of_string b).
  by rewrite H.
Qed.

Lemma zip_filename_inj foldername t1 t2 :
  zip_filename foldername t1 = zip_filename foldername t2 → t1 = t2.
Proof.
  unfold zip_filename. intros H.
  apply (inj (String.app foldername)) in H.
  apply (inj (String.app "_")) in H.
  apply string_app_inj_r in H. by apply (inj pretty) in H.
Qed.

(** Two calls of [createZipWithProgress] for the same folder name that read
    different values of [Date.now()] write to files of different names, and
    to different paths as far as [path.join] keeps different names in the
    temp directory apart. *)
Lemma zip_names_differ_when_clock_differs
    (path_join : string → string → string) (tempDir foldername : string)
    (t1 t2 : N) :
  t1 ≠ t2 →
  zip_filename foldername t1 ≠ zip_filename foldername t2
  ∧ ((∀ a b, path_join tempDir a = path_join tempDir b → a = b) →
     make_zipPath path_join tempDir foldername t1
     ≠ make_zipPath path_join tempDir foldername t2).
Proof.
  intros Hne. split.
  - by intros H%zip_filename_inj.
  - intros Hinj H. unfold make_zipPath in H. by apply Hinj, zip_filename_inj in H.
Qed.

Lemma ex_join_inj dir a b : ex_join dir a = ex_join dir b → a = b.
Proof.
  unfold ex_join. intros H.
  apply (inj (String.app dir)) in H. by apply (inj (String.app "/")) in H.
Qed.

Example zip_names_one_millisecond_apart :
  zip_filename "photos" 1700000000000 ≠ zip_filename "photos" 1700000000001
  ∧ make_zipPath ex_join ex_tempDir "photos" 1700000000000
    ≠ make_zipPath ex_join ex_tempDir "photos" 1700000000001.
Proof.
  destruct (zip_names_differ_when_clock_differs ex_join ex_tempDir "photos"
              1700000000000 1700000000001) as [H1 H2]; [lia|].
  split; [exact H1|]. apply H2. apply ex_join_inj.
Qed.

(** C9 on two requests for the folder [photos] handled in the same
    millisecond: they create two jobs with different identifiers, both
    registered and neither finished, and the two calls of
    [createZipWithProgress] fix one and the same [zipPath]. *)
Theorem C9_same_millisecond_same_zipPath :
  ex_jobId ≠ ex_jobId_second
  ∧ now ex_start.2 = now ex_server
  ∧ ex_start.1 = Setup ex_jobId ex_zipPath
  ∧ ex_start_second.1 = Setup ex_jobId_second ex_zipPath
  ∧ (status <$> getJob ex_jobId ex_start_second.2) = Some initializing
  ∧ (status <$> getJob ex_jobId_second ex_start_second.2) = Some initializing.
Proof. repeat split; try (vm_compute; reflexivity). discriminate. Qed.

(** ** What a run keeps true *)

Lemma run_snoc evs e cfg : run (evs ++ [e]) cfg = step e (run evs cfg).
Proof. unfold run. by rewrite foldl_app. Qed.

Lemma run_app evs1 evs2 cfg : run (evs1 ++ evs2) cfg = run evs2 (run evs1 cfg).
Proof. unfold run. by rewrite foldl_app. Qed.

Lemma entry_count_app evs1 evs2 :
  entry_count (evs1 ++ evs2) = entry_count evs1 + entry_count evs2.
Proof.
  induction evs1 as [|e evs1 IH]; simpl; [done|]. destruct e; rewrite ?IH; lia.
Qed.

Lemma getJob_errorJob_total jobId err s :
  getJob jobId (errorJob jobId err s)
  = (λ job, {| job_id := job_id job; folderPath := folderPath job;
               startTime := startTime job; progress := progress job;
               status := error_; filesProcessed := filesProcessed job;
               totalFiles := totalFiles job; currentFile := currentFile job;
               error := Some err; zipPath := zipPath job |}) <$> getJob jobId s.
Proof.
  unfold getJob, errorJob. destruct (activeJobs s !! jobId) as [job|] eqn:E; simpl.
  - by rewrite lookup_insert_eq.
  - by rewrite E.
Qed.

(** ** Doubles *)

Lemma round_nearest_even_bound (n d : Z) :
  (0 < d)%Z →
  (- d ≤ 2 * (round_nearest_even n d * d - n) ≤ d)%Z.
Proof.
  intros Hd. unfold round_nearest_even.
  pose proof (Z.div_mod n d ltac:(lia)) as Hdm.
  pose proof (Z.mod_pos_bound n d Hd) as Hr.
  generalize dependent (n mod d)%Z. generalize dependent (n / d)%Z.
  intros q r Hdm Hr.
  destruct (2 * r <? d)%Z eqn:E1; [apply Z.ltb_lt in E1; nia|].
  apply Z.ltb_ge in E1.
  destruct (d <? 2 * r)%Z eqn:E2; [apply Z.ltb_lt in E2; nia|].
  apply Z.ltb_ge in E2. destruct (Z.even q); nia.
Qed.

Lemma pow2_pos (k : Z) : (0 < 2 ^ Z.max k 0)%Z.
Proof. apply Z.pow_pos_nonneg; lia. Qed.

(** The scaled quotient is at least 2^52. *)
Lemma double_exponent_scaled (p q : Z) :
  (0 < p)%Z → (0 < q)%Z →
  (2 ^ 52 * (scaled p q (double_exponent p q)).2
   ≤ (scaled p q (double_exponent p q)).1)%Z.
Proof.
  intros Hp Hq. unfold double_exponent.
  set (L := (Z.log2 p - Z.log2 q - 53)%Z).
  pose proof (Z.log2_spec p Hp) as [Hp1 Hp2].
  pose proof (Z.log2_spec q Hq) as [Hq1 Hq2].
  pose proof (Z.log2_nonneg p) as Hlp. pose proof (Z.log2_nonneg q) as Hlq.
  destruct ((scaled p q L).1 / (scaled p q L).2 <? 2 ^ 53)%Z eqn:E.
  - (* exponent L *)
    unfold scaled; simpl. clear E.
    destruct (Z.le_gt_cases 0 L) as [HL|HL].
    + rewrite (Z.max_r (- L) 0), (Z.max_l L 0) by lia.
      rewrite Z.pow_0_r, Z.mul_1_r.
      assert (Hpow : (2 ^ Z.log2 p = 2 ^ 52 * (2 ^ Z.succ (Z.log2 q) * 2 ^ L))%Z).
      { rewrite <- !Z.pow_add_r by lia. f_equal. lia. }
      pose proof (Z.pow_pos_nonneg 2 L ltac:(lia) HL). nia.
    + rewrite (Z.max_l (- L) 0), (Z.max_r L 0) by lia.
      rewrite Z.pow_0_r, Z.mul_1_r.
      assert (Hpow : (2 ^ Z.log2 p * 2 ^ (- L) = 2 ^ 52 * 2 ^ Z.succ (Z.log2 q))%Z).
      { rewrite <- !Z.pow_add_r by lia. f_equal. lia. }
      pose proof (Z.pow_pos_nonneg 2 (- L) ltac:(lia) ltac:(lia)). nia.
  - (* exponent L + 1 *)
    apply Z.ltb_ge in E.
    assert (Hd : (0 < (scaled p q L).2)%Z).
    { unfold scaled; simpl. pose proof (pow2_pos L). nia. }
    assert (HE : (2 ^ 53 * (scaled p q L).2 ≤ (scaled p q L).1)%Z).
    { pose proof (Z.div_mod (scaled p q L).1 (scaled p q L).2 ltac:(lia)) as Hdm.
      pose proof (Z.mod_pos_bound (scaled p q L).1 (scaled p q L).2 Hd) as Hr.
      nia. }
    clear E Hd. unfold scaled in *; simpl in *.
    destruct (Z.le_gt_cases 0 L) as [HL|HL].
    + rewrite (Z.max_r (- L) 0), (Z.max_l L 0) in HE by lia.
      rewrite (Z.max_r (- (L + 1)) 0), (Z.max_l (L + 1) 0) by lia.
      rewrite Z.pow_add_r by lia. change (2 ^ 53)%Z with (2 ^ 52 * 2)%Z in HE.
      rewrite Z.pow_0_r in *. lia.
    + rewrite (Z.max_l (- L) 0), (Z.max_r L 0) in HE by lia.
      rewrite (Z.max_l (- (L + 1)) 0), (Z.max_r (L + 1) 0) by lia.
      replace (- L)%Z with (- (L + 1) + 1)%Z in HE by lia.
      rewrite Z.pow_add_r in HE by lia.
      change (2 ^ 53)%Z with (2 ^ 52 * 2)%Z in HE.
      rewrite Z.pow_0_r in *. lia.
Qed.

Lemma to_double_error (x : Q) :
  (0 < Qnum x)%Z →
  (0 < Qnum (to_double x))%Z
  ∧ (2 ^ 53 * (Qnum (to_double x) * Z.pos (Qden x)
               - Qnum x * Z.pos (Qden (to_double x)))
     ≤ Qnum x * Z.pos (Qden (to_double x)))%Z
  ∧ (2 ^ 53 * (Qnum x * Z.pos (Qden (to_double x))
               - Qnum (to_double x) * Z.pos (Qden x))
     ≤ Qnum x * Z.pos (Qden (to_double x)))%Z.
Proof.
  intros Hp. unfold to_double.
  destruct (Qnum x <=? 0)%Z eqn:E; [apply Z.leb_le in E; lia|]. clear E.
  set (p := Qnum x) in *. set (q := Z.pos (Qden x)).
  assert (Hq : (0 < q)%Z) by done.
  pose proof (double_exponent_scaled p q Hp Hq) as Hlow.
  set (e := double_exponent p q) in *.
  assert (Hd : (0 < (scaled p q e).2)%Z).
  { unfold scaled; simpl. pose proof (pow2_pos e). nia. }
  pose proof (round_nearest_even_bound (scaled p q e).1 (scaled p q e).2 Hd) as Hm.
  set (m := round_nearest_even (scaled p q e).1 (scaled p q e).2) in *.
  unfold scaled in *; simpl in *.
  rewrite Z2Pos.id by apply pow2_pos.
  pose proof (pow2_pos e) as Ha. pose proof (pow2_pos (- e)) as Hb.
  set (a := (2 ^ Z.max e 0)%Z) in *. set (b := (2 ^ Z.max (- e) 0)%Z) in *.
  change (2 ^ 52)%Z with 4503599627370496%Z in *.
  change (2 ^ 53)%Z with 9007199254740992%Z in *.
  assert (Hqa : (0 < q * a)%Z) by nia.
  replace (m * a * q)%Z with (m * (q * a))%Z by ring.
  generalize dependent (q * a)%Z. generalize dependent (p * b)%Z.
  intros n Hlow0 d Hlow Hd Hm Hqa.
  split; [nia|]. split; lia.
Qed.

Lemma percent_nearest (filesProcessed totalFiles : N) :
  0 < totalFiles → filesProcessed < 2 ^ 43 →
  ∃ z, percent filesProcessed totalFiles = JInt z
       ∧ (200 * Z.of_N filesProcessed - Z.of_N totalFiles
          ≤ 2 * Z.of_N totalFiles * z
          ≤ 200 * Z.of_N filesProcessed + Z.of_N totalFiles)%Z.
Proof.
  intros Ht Hfp. unfold percent.
  destruct totalFiles as [|t]; [lia|]. simpl (N.pos t =? 0). cbv iota.
  eexists. split; [reflexivity|].
  destruct filesProcessed as [|f].
  { vm_compute. split; discriminate. }
  unfold js_mul, js_div.
  set (x1 := (inject_Z (Z.of_N (N.pos f)) / inject_Z (Z.of_N (N.pos t)))%Q).
  assert (Hx1n : Qnum x1 = (Z.pos f * 1)%Z) by reflexivity.
  assert (Hx1d : Z.pos (Qden x1) = (1 * Z.pos t)%Z) by reflexivity.
  destruct (to_double_error x1) as (Hn1 & E1a & E1b); [rewrite Hx1n; lia|].
  rewrite Hx1n, Hx1d in E1a, E1b.
  set (y1 := to_double x1) in *.
  set (x2 := (y1 * inject_Z 100)%Q).
  assert (Hx2n : Qnum x2 = (Qnum y1 * 100)%Z) by reflexivity.
  assert (Hx2d : Z.pos (Qden x2) = (Z.pos (Qden y1) * 1)%Z) by reflexivity.
  destruct (to_double_error x2) as (Hn2 & E2a & E2b); [rewrite Hx2n; lia|].
  rewrite Hx2n, Hx2d in E2a, E2b.
  set (y2 := to_double x2) in *.
  unfold Math_round, Qfloor, Qplus. simpl Qnum. simpl Qden.
  rewrite Pos2Z.inj_mul.
  assert (Hd1 : (0 < Z.pos (Qden y1))%Z) by done.
  assert (Hd2 : (0 < Z.pos (Qden y2))%Z) by done.
  set (n1 := Qnum y1) in *. set (d1 := Z.pos (Qden y1)) in *.
  set (n2 := Qnum y2) in *. set (d2 := Z.pos (Qden y2)) in *.
  pose proof (Z.div_mod (n2 * 2 + 1 * d2) (d2 * 2) ltac:(lia)) as Hdm.
  pose proof (Z.mod_pos_bound (n2 * 2 + 1 * d2) (d2 * 2) ltac:(lia)) as Hr.
  set (z := ((n2 * 2 + 1 * d2) / (d2 * 2))%Z) in *.
  generalize dependent ((n2 * 2 + 1 * d2) mod (d2 * 2))%Z. intros r Hdm Hr.
  assert (Hf : (Z.pos f < 2 ^ 43)%Z) by lia.
  change (2 ^ 43)%Z with 8796093022208%Z in Hf.
  change (2 ^ 53)%Z with 9007199254740992%Z in *.
  change (Z.of_N (N.pos f)) with (Z.pos f).
  change (Z.of_N (N.pos t)) with (Z.pos t).
  set (F := Z.pos f) in *. set (T := Z.pos t) in *.
  assert (HT : (0 < T)%Z) by done. assert (HF : (0 < F)%Z) by done.
  clearbody F T z n1 d1 n2 d2. clear -E1a E1b E2a E2b Hn1 Hn2 Hd1 Hd2 Hdm Hr Hf HT HF.
  set (E := 9007199254740992%Z) in *.
  (* relative errors, as products *)
  assert (U1 : (E * (n1 * T) ≤ (E + 1) * (F * d1))%Z) by lia.
  assert (L1 : ((E - 1) * (F * d1) ≤ E * (n1 * T))%Z) by lia.
  assert (U2 : (E * (n2 * d1) ≤ 100 * (E + 1) * (n1 * d2))%Z) by lia.
  assert (L2 : (100 * (E - 1) * (n1 * d2) ≤ E * (n2 * d1))%Z) by lia.
  (* combine: E^2 n2 T <= 100 (E+1)^2 F d2, and the lower counterpart *)
  assert (U : (E * E * (n2 * T) ≤ 100 * (E + 1) * (E + 1) * (F * d2))%Z).
  { apply (Z.mul_le_mono_pos_r _ _ d1 Hd1).
    assert (A1 : (E * E * (n2 * T) * d1 = E * T * (E * (n2 * d1)))%Z) by ring.
    assert (A2 : (100 * (E + 1) * (E + 1) * (F * d2) * d1
                  = 100 * (E + 1) * d2 * ((E + 1) * (F * d1)))%Z) by ring.
    rewrite A1, A2.
    assert (B1 : (E * T * (E * (n2 * d1)) ≤ E * T * (100 * (E + 1) * (n1 * d2)))%Z).
    { apply Z.mul_le_mono_nonneg_l; [subst E; lia|exact U2]. }
    assert (B2 : (E * T * (100 * (E + 1) * (n1 * d2))
                  = 100 * (E + 1) * d2 * (E * (n1 * T)))%Z) by ring.
    assert (B3 : (100 * (E + 1) * d2 * (E * (n1 * T))
                  ≤ 100 * (E + 1) * d2 * ((E + 1) * (F * d1)))%Z).
    { apply Z.mul_le_mono_nonneg_l; [subst E; lia|exact U1]. }
    lia. }
  assert (L : (100 * (E - 1) * (E - 1) * (F * d2) ≤ E * E * (n2 * T))%Z).
  { apply (Z.mul_le_mono_pos_r _ _ d1 Hd1).
    assert (A1 : (E * E * (n2 * T) * d1 = E * T * (E * (n2 * d1)))%Z) by ring.
    assert (A2 : (100 * (E - 1) * (E - 1) * (F * d2) * d1
                  = 100 * (E - 1) * d2 * ((E - 1) * (F * d1)))%Z) by ring.
    rewrite A1, A2.
    assert (B1 : (E * T * (100 * (E - 1) * (n1 * d2)) ≤ E * T * (E * (n2 * d1)))%Z).
    { apply Z.mul_le_mono_nonneg_l; [subst E; lia|exact L2]. }
    assert (B2 : (E * T * (100 * (E - 1) * (n1 * d2))
                  = 100 * (E - 1) * d2 * (E * (n1 * T)))%Z) by ring.
    assert (B3 : (100 * (E - 1) * d2 * ((E - 1) * (F * d1))
                  ≤ 100 * (E - 1) * d2 * (E * (n1 * T)))%Z).
    { apply Z.mul_le_mono_nonneg_l; [subst E; lia|exact L1]. }
    lia. }
  (* the floor *)
  assert (Z1 : (2 * (z * T * d2) ≤ 2 * (n2 * T) + T * d2)%Z) by nia.
  assert (Z2 : (2 * (n2 * T) + T * d2 < 2 * (z * T * d2) + 2 * (T * d2))%Z) by nia.
  (* divide by d2 *)
  assert (UU : (2 * E * E * (z * T) ≤ 200 * (E + 1) * (E + 1) * F + E * E * T)%Z).
  { apply (Z.mul_le_mono_pos_r _ _ d2 Hd2).
    replace (2 * E * E * (z * T) * d2)%Z with (E * E * (2 * (z * T * d2)))%Z by ring.
    replace ((200 * (E + 1) * (E + 1) * F + E * E * T) * d2)%Z
      with (2 * (100 * (E + 1) * (E + 1) * (F * d2)) + E * E * (T * d2))%Z by ring.
    assert (E * E * (2 * (z * T * d2)) ≤ E * E * (2 * (n2 * T) + T * d2))%Z
      by (apply Z.mul_le_mono_nonneg_l; [subst E; lia|exact Z1]).
    lia. }
  assert (LL : (200 * (E - 1) * (E - 1) * F - E * E * T < 2 * E * E * (z * T))%Z).
  { apply (Z.mul_lt_mono_pos_r d2 _ _ Hd2).
    replace (2 * E * E * (z * T) * d2)%Z
      with (E * E * (2 * (z * T * d2) + 2 * (T * d2)) - 2 * E * E * (T * d2))%Z by ring.
    replace ((200 * (E - 1) * (E - 1) * F - E * E * T) * d2)%Z
      with (2 * (100 * (E - 1) * (E - 1) * (F * d2)) - E * E * (T * d2))%Z by ring.
    assert (E * E * (2 * (n2 * T) + T * d2)
            < E * E * (2 * (z * T * d2) + 2 * (T * d2)))%Z
      by (apply Z.mul_lt_mono_pos_l; [subst E; lia|exact Z2]).
    lia. }
  replace (2 * T * z)%Z with (2 * (z * T))%Z by ring.
  generalize dependent (z * T)%Z. intros W _ _ UU LL.
  subst E. lia.
Qed.

(** The percentage of the specification, as a quotient of integers. *)
Lemma spec_progressPercent_closed_form (filesProcessed totalFiles : N) :
  0 < totalFiles →
  spec_progressPercent filesProcessed totalFiles
  = ((200 * Z.of_N filesProcessed + Z.of_N totalFiles)
     / (2 * Z.of_N totalFiles))%Z.
Proof.
  intros Hpos. unfold spec_progressPercent.
  destruct totalFiles as [|p]; [lia|]. simpl.
  unfold Qfloor, Qdiv, Qmult, Qplus, Qinv, inject_Z. simpl.
  f_equal; lia.
Qed.

(** An integer within one half of [100 * filesProcessed / totalFiles] is
    the percentage of the specification, or one less when the exact value
    lies half-way. *)
Lemma nearest_is_spec (filesProcessed totalFiles : N) (z : Z) :
  0 < totalFiles →
  (200 * Z.of_N filesProcessed - Z.of_N totalFiles
   ≤ 2 * Z.of_N totalFiles * z
   ≤ 200 * Z.of_N filesProcessed + Z.of_N totalFiles)%Z →
  z = spec_progressPercent filesProcessed totalFiles
  ∨ (half_way filesProcessed totalFiles
     ∧ z = (spec_progressPercent filesProcessed totalFiles - 1)%Z).
Proof.
  intros Hpos Hband. rewrite spec_progressPercent_closed_form by done.
  unfold half_way.
  pose proof (Z.div_mod (200 * Z.of_N filesProcessed + Z.of_N totalFiles)
                (2 * Z.of_N totalFiles) ltac:(lia)) as Hdm.
  pose proof (Z.mod_pos_bound (200 * Z.of_N filesProcessed + Z.of_N totalFiles)
                (2 * Z.of_N totalFiles) ltac:(lia)) as Hmod.
  generalize dependent ((200 * Z.of_N filesProcessed + Z.of_N totalFiles)
                        mod (2 * Z.of_N totalFiles))%Z.
  generalize dependent ((200 * Z.of_N filesProcessed + Z.of_N totalFiles)
                        / (2 * Z.of_N totalFiles))%Z.
  intros k r Hdm Hmod. nia.
Qed.

(** What the 'entry' handler stores, in the terms of the specification. *)
Lemma percent_spec (filesProcessed totalFiles : N) :
  0 < totalFiles → filesProcessed < 2 ^ 43 →
  ∃ z, percent filesProcessed totalFiles = JInt z
       ∧ (z = spec_progressPercent filesProcessed totalFiles
          ∨ (half_way filesProcessed totalFiles
             ∧ z = (spec_progressPercent filesProcessed totalFiles - 1)%Z)).
Proof.
  intros Hpos Hlt.
  destruct (percent_nearest filesProcessed totalFiles Hpos Hlt) as (z & Hz & Hband).
  exists z. split; [done|]. by apply nearest_is_spec.
Qed.

(** The model of the double arithmetic and the Standard Library's
    specification of binary64 compute the same percentage on every pair of
    the grid, and on counters near the ends of the range. *)
Example percent_agrees_with_binary64 :
  forallb (λ p, bool_decide (Some (percent p.1 p.2) = JInt <$> ieee_percent p.1 p.2))
          agreement_grid = true
  ∧ forallb (λ p, bool_decide (Some (percent p.1 p.2) = JInt <$> ieee_percent p.1 p.2))
            [(8796093022207, 9007199254740991); (9007199254740991, 3);
             (1, 9007199254740991); (123456789012, 987654321098);
             (7, 4503599627370497)] = true.
Proof. split; vm_compute; reflexivity. Qed.

(** Halves do not always go up: 23 of 40 is stored as 57, since the double
    nearest to 23/40 lies below 0.575 and its product with 100 below
    57.5. *)
Example percent_of_halves :
  percent 23 40 = JInt 57 ∧ spec_progressPercent 23 40 = 58%Z
  ∧ percent 1 8 = JInt 13 ∧ percent 1 200 = JInt 1
  ∧ percent 199 200 = JInt 100 ∧ percent 201 200 = JInt 100
  ∧ percent 29 200 = JInt 14 ∧ spec_progressPercent 29 200 = 15%Z.
Proof. repeat split; vm_compute; reflexivity. Qed.

Lemma percent_0 totalFiles : totalFiles ≠ 0 → percent 0 totalFiles = JInt 0.
Proof.
  intros Hne. unfold percent. apply N.eqb_neq in Hne. rewrite Hne.
  destruct totalFiles; [done|]. reflexivity.
Qed.

Lemma shown_percent c :
  c_totalFiles c ≠ 0 → shown c = percent (c_filesProcessed c) (c_totalFiles c).
Proof.
  intros Hne. unfold shown. destruct (c_filesProcessed c =? 0) eqn:E; [|done].
  apply N.eqb_eq in E. rewrite E. by rewrite percent_0.
Qed.

Lemma inv_start path_join tempDir jobId folder foldername s :
  inv jobId [] (start_zip path_join tempDir jobId folder foldername s).
Proof.
  unfold inv, start_zip; simpl. split; [done|]. intros job.
  unfold getJob, createJob; simpl. rewrite lookup_insert_eq.
  by intros [= <-].
Qed.

Lemma inv_extend jobId evs e cfg : inv jobId evs cfg → inv jobId (evs ++ [e]) cfg.
Proof.
  unfold inv. destruct cfg as [[id zp|id zp|c|] s]; simpl; try done.
  intros (Hid & Hle & H). split; [done|]. split.
  - rewrite entry_count_app. lia.
  - intros job Hjob. destruct (H job Hjob) as (H1 & H2 & H3 & H4 & H5 & H6).
    repeat split; try done. intros Hno. apply H6. intros Hin. apply Hno.
    apply elem_of_app. by left.
Qed.

Lemma inv_sub jobId evs task s s' :
  (∀ job, getJob jobId s' = Some job → getJob jobId s = Some job) →
  inv jobId evs (task, s) → inv jobId evs (task, s').
Proof.
  intros Hsub. unfold inv. destruct task as [id zp|id zp|c|]; simpl.
  - intros [Hid H]. split; [done|]. intros job Hjob. by apply H, Hsub.
  - intros [Hid H]. split; [done|]. intros job Hjob. by apply H, Hsub.
  - intros (Hid & Hle & H). split; [done|]. split; [done|].
    intros job Hjob. by apply H, Hsub.
  - intros H job Hjob. by apply H, Hsub.
Qed.

Lemma inv_step jobId evs e cfg :
  inv jobId evs cfg → inv jobId (evs ++ [e]) (step e cfg).
Proof.
  intros Hinv.
  destruct cfg as [task s].
  destruct e as [|err|tree| |name| |err|err|err|ms];
    [destruct task as [id zp|id zp|c|]; try (by apply inv_extend)..|].
  - (* MkdirOk *)
    unfold inv in *; simpl in *. destruct Hinv as [-> H]. split; [done|].
    intros job. rewrite getJob_updateJob.
    destruct (getJob jobId s) as [job0|] eqn:E; [|done]. intros [= <-].
    destruct (H job0 eq_refl) as (_ & H1 & H2 & H3). by repeat split.
  - (* MkdirThrows *)
    unfold inv in *; simpl in *. destruct Hinv as [-> H].
    intros job. rewrite getJob_errorJob_total.
    destruct (getJob jobId s) as [job0|] eqn:E; [|done]. intros [= <-].
    destruct (H job0 eq_refl) as (_ & H1 & H2 & H3). by repeat split.
  - (* Counted *)
    unfold inv in *; simpl in *. destruct Hinv as [-> H].
    split; [done|]. split; [lia|].
    intros job. rewrite getJob_updateJob.
    destruct (getJob jobId s) as [job0|] eqn:E; [|done]. intros [= <-].
    destruct (H job0 eq_refl) as (_ & H1 & H2 & H3). simpl.
    repeat split; try done; auto.
  - (* Entry *)
    unfold inv in *; simpl in *. destruct Hinv as (<- & Hle & H).
    split; [done|]. split; [rewrite entry_count_app; simpl; lia|].
    intros job. rewrite getJob_updateJob.
    destruct (getJob (c_jobId c) s) as [job0|] eqn:E; [|done]. intros [= <-].
    destruct (H job0 eq_refl) as (H1 & H2 & _). simpl.
    assert (Hshown : shown {| c_jobId := c_jobId c; c_zipPath := c_zipPath c;
                              c_totalFiles := c_totalFiles c;
                              c_filesProcessed := c_filesProcessed c + 1 |}
                     = percent (c_filesProcessed c + 1) (c_totalFiles c)).
    { unfold shown; simpl. destruct (c_filesProcessed c + 1 =? 0) eqn:E0; [|done].
      apply N.eqb_eq in E0. lia. }
    rewrite Hshown. repeat split; try done; auto.
  - (* OutputClose *)
    unfold inv in *; simpl in *. destruct Hinv as (<- & Hle & H).
    split; [done|]. split; [rewrite entry_count_app; simpl; lia|].
    intros job. unfold on_close. rewrite getJob_updateJob.
    destruct (getJob (c_jobId c) s) as [job0|] eqn:E; [|done]. intros [= <-].
    destruct (H job0 eq_refl) as (H1 & H2 & _). simpl.
    repeat split; try done; auto.
    intros Hno. exfalso. apply Hno. apply elem_of_app. right. by left.
  - (* ArchiveError *)
    unfold inv in *; simpl in *. destruct Hinv as (<- & Hle & H).
    split; [done|]. split; [rewrite entry_count_app; simpl; lia|].
    intros job. rewrite getJob_errorJob_total.
    destruct (getJob (c_jobId c) s) as [job0|] eqn:E; [|done]. intros [= <-].
    destruct (H job0 eq_refl) as (H1 & H2 & H3 & H4 & H5 & H6). simpl.
    repeat split; try done; auto.
    intros Hno. apply H6. intros Hin. apply Hno. apply elem_of_app. by left.
  - (* OutputError *)
    unfold inv in *; simpl in *. destruct Hinv as (<- & Hle & H).
    split; [done|]. split; [rewrite entry_count_app; simpl; lia|].
    intros job. rewrite getJob_errorJob_total.
    destruct (getJob (c_jobId c) s) as [job0|] eqn:E; [|done]. intros [= <-].
    destruct (H job0 eq_refl) as (H1 & H2 & H3 & H4 & H5 & H6). simpl.
    repeat split; try done; auto.
    intros Hno. apply H6. intros Hin. apply Hno. apply elem_of_app. by left.
  - (* FinalizeThrows *)
    unfold inv in *; simpl in *. destruct Hinv as (<- & Hle & H).
    split; [done|]. split; [rewrite entry_count_app; simpl; lia|].
    intros job. rewrite getJob_errorJob_total.
    destruct (getJob (c_jobId c) s) as [job0|] eqn:E; [|done]. intros [= <-].
    destruct (H job0 eq_refl) as (H1 & H2 & H3 & H4 & H5 & H6). simpl.
    repeat split; try done; auto.
    intros Hno. apply H6. intros Hin. apply Hno. apply elem_of_app. by left.
  - (* Tick *)
    apply inv_extend.
    assert (Hstep : step (Tick ms) (task, s) = (task, tick ms s)) by by destruct task.
    rewrite Hstep. eapply inv_sub; [|exact Hinv]. apply tick_jobs_sub.
Qed.

Lemma inv_run path_join tempDir jobId folder foldername s evs :
  inv jobId evs (run evs (start_zip path_join tempDir jobId folder foldername s)).
Proof.
  induction evs as [|e evs IH] using rev_ind; [apply inv_start|].
  rewrite run_snoc. by apply inv_step.
Qed.

Lemma inv_run_from jobId evs evs2 cfg :
  inv jobId evs cfg → inv jobId (evs ++ evs2) (run evs2 cfg).
Proof.
  intros Hinv. induction evs2 as [|e evs2 IH] using rev_ind.
  - by rewrite app_nil_r.
  - rewrite run_snoc, app_assoc. by apply inv_step.
Qed.

Lemma updateJob_present jobId other updates s job :
  getJob jobId (updateJob other updates s) = Some job → is_Some (getJob jobId s).
Proof.
  destruct (decide (other = jobId)) as [->|Hne].
  - rewrite getJob_updateJob. by destruct (getJob jobId s).
  - rewrite getJob_updateJob_ne; [|done]. by intros ->.
Qed.

Lemma errorJob_present jobId other err s job :
  getJob jobId (errorJob other err s) = Some job → is_Some (getJob jobId s).
Proof.
  destruct (decide (other = jobId)) as [->|Hne].
  - rewrite getJob_errorJob_total. by destruct (getJob jobId s).
  - unfold getJob, errorJob. destruct (activeJobs s !! other); simpl.
    + rewrite lookup_insert_ne; [|done]. by intros ->.
    + by intros ->.
Qed.

(** No event registers a job: whoever is in the registry after a step was
    there before it. *)
Lemma step_present jobId e cfg job :
  getJob jobId (step e cfg).2 = Some job → is_Some (getJob jobId cfg.2).
Proof.
  destruct cfg as [task s].
  destruct e as [|err|tree| |name| |err|err|err|ms];
    [destruct task as [id zp|id zp|c|]; simpl; intros H;
     first [ by (exists job; exact H)
           | by eapply updateJob_present, H
           | by eapply errorJob_present, H ]..|].
  assert (Hstep : step (Tick ms) (task, s) = (task, tick ms s)) by by destruct task.
  rewrite Hstep. simpl. by intros ->%tick_jobs_sub.
Qed.

Lemma step_filesProcessed_mono jobId evs e cfg j1 j2 :
  inv jobId evs cfg →
  getJob jobId cfg.2 = Some j1 → getJob jobId (step e cfg).2 = Some j2 →
  filesProcessed j1 ≤ filesProcessed j2.
Proof.
  destruct cfg as [task s]. intros Hinv Hj1.
  destruct e as [|err|tree| |name| |err|err|err|ms];
    [destruct task as [id zp|id zp|c|]; unfold inv in Hinv; simpl in *;
     try (by rewrite Hj1; intros [= <-])..|].
  - destruct Hinv as [-> _]. rewrite getJob_updateJob, Hj1. by intros [= <-].
  - destruct Hinv as [-> _]. rewrite getJob_errorJob_total, Hj1. by intros [= <-].
  - destruct Hinv as [-> _]. rewrite getJob_updateJob, Hj1. by intros [= <-].
  - intros Hj2. change (getJob jobId s = Some j2) in Hj2.
    rewrite Hj1 in Hj2. by injection Hj2 as <-.
  - destruct Hinv as (<- & _ & H). rewrite getJob_updateJob, Hj1. intros [= <-].
    destruct (H j1 Hj1) as [-> _]. simpl. lia.
  - destruct Hinv as (<- & _ & H). unfold on_close.
    rewrite getJob_updateJob, Hj1. by intros [= <-].
  - destruct Hinv as (<- & _ & H). rewrite getJob_errorJob_total, Hj1. by intros [= <-].
  - destruct Hinv as (<- & _ & H). rewrite getJob_errorJob_total, Hj1. by intros [= <-].
  - destruct Hinv as (<- & _ & H). rewrite getJob_errorJob_total, Hj1. by intros [= <-].
  - assert (Hstep : step (Tick ms) (task, s) = (task, tick ms s)) by by destruct task.
    rewrite Hstep. simpl. intros Hj2%tick_jobs_sub. simpl in Hj1.
    rewrite Hj1 in Hj2. by injection Hj2 as <-.
Qed.

Lemma run_filesProcessed_mono jobId evs evs2 cfg j1 j2 :
  inv jobId evs cfg →
  getJob jobId cfg.2 = Some j1 → getJob jobId (run evs2 cfg).2 = Some j2 →
  filesProcessed j1 ≤ filesProcessed j2.
Proof.
  intros Hinv Hj1. revert j2.
  induction evs2 as [|e evs2 IH] using rev_ind; intros j2.
  - simpl. rewrite Hj1. by intros [= <-].
  - rewrite run_snoc. intros Hj2.
    destruct (step_present _ _ _ _ Hj2) as [jm Hjm].
    specialize (IH jm Hjm).
    pose proof (step_filesProcessed_mono jobId (evs ++ evs2) e (run evs2 cfg) jm j2
                  (inv_run_from _ _ _ _ Hinv) Hjm Hj2).
    lia.
Qed.

Lemma inv_filesProcessed_le jobId evs cfg job :
  inv jobId evs cfg → getJob jobId cfg.2 = Some job →
  filesProcessed job ≤ entry_count evs.
Proof.
  destruct cfg as [[id zp|id zp|c|] s]; unfold inv; simpl.
  - intros [_ H] Hjob. destruct (H job Hjob) as (_ & _ & -> & _). lia.
  - intros [_ H] Hjob. destruct (H job Hjob) as (_ & _ & -> & _). lia.
  - intros (_ & Hle & H) Hjob. by destruct (H job Hjob) as (-> & _).
  - intros H Hjob. destruct (H job Hjob) as (_ & _ & -> & _). lia.
Qed.

(** ** filesProcessed and totalFiles *)

(** C1, as the code has it. Over one job's run, [filesProcessed] read at a
    later point is never below [filesProcessed] read earlier, and it never
    exceeds the number of 'entry' events delivered so far; so it stays
    within [totalFiles] as long as the archiver has emitted no more entries
    than [countFilesRecursive] counted. The handler itself sets no bound. *)
Theorem C1_filesProcessed_monotone_and_bounded_by_entries
    (path_join : string → string → string) (tempDir jobId folder foldername : string)
    (s : Server) (evs1 evs2 : list event) (j1 j2 : Job) :
  getJob jobId (run evs1 (start_zip path_join tempDir jobId folder foldername s)).2
    = Some j1 →
  getJob jobId
    (run (evs1 ++ evs2) (start_zip path_join tempDir jobId folder foldername s)).2
    = Some j2 →
  filesProcessed j1 ≤ filesProcessed j2
  ∧ filesProcessed j2 ≤ entry_count (evs1 ++ evs2)
  ∧ (entry_count (evs1 ++ evs2) ≤ totalFiles j2 →
     filesProcessed j2 ≤ totalFiles j2).
Proof.
  intros Hj1 Hj2.
  assert (Hle : filesProcessed j2 ≤ entry_count (evs1 ++ evs2)).
  { eapply inv_filesProcessed_le; [apply inv_run|exact Hj2]. }
  split; [|split; [done|lia]].
  rewrite run_app in Hj2.
  eapply run_filesProcessed_mono; [apply inv_run|exact Hj1|exact Hj2].
Qed.

Lemma C1_filesProcessed_monotone_and_bounded_by_entries_witness :
  (1 ≤ 2 ∧ 2 ≤ entry_count ex_events_ok ∧ (entry_count ex_events_ok ≤ 2 → 2 ≤ 2)).
Proof.
  apply (C1_filesProcessed_monotone_and_bounded_by_entries ex_join ex_tempDir ex_jobId
           "/srv/data/photos" "photos" ex_server
           [MkdirOk; Counted ex_tree_flat; OutputOpen; Entry "a.txt"]
           [Entry "b.txt"; OutputClose]
           {| job_id := ex_jobId; folderPath := "/srv/data/photos";
              startTime := 1700000000000; progress := JInt 50; status := zipping;
              filesProcessed := 1; totalFiles := 2; currentFile := "a.txt";
              error := None; zipPath := None |}
           ex_completed_job); vm_compute; reflexivity.
Defined.

(** C1 fails as stated: the folder holds one file and one empty sub-folder,
    so [countFilesRecursive] returns 1; the archiver emits an entry for the
    file and one for the sub-folder, and the second 'entry' event leaves
    [filesProcessed] = 2 with [totalFiles] = 1. *)
Lemma C1_counterexample :
  countFilesRecursive ex_tree = 1
  ∧ ∃ job,
      getJob ex_jobId
        (run [MkdirOk; Counted ex_tree; OutputOpen; Entry "a.txt"; Entry "sub/"]
           ex_start).2 = Some job
      ∧ totalFiles job = 1 ∧ filesProcessed job = 2
      ∧ ¬ (filesProcessed job ≤ totalFiles job).
Proof.
  split; [reflexivity|]. eexists. split; [vm_compute; reflexivity|].
  simpl. repeat split. lia.
Qed.

(** ** The progress percentage *)

Lemma getJob_completeJob jobId s job :
  getJob jobId s = Some job →
  ∃ job', getJob jobId (completeJob jobId s) = Some job'
    ∧ status job' = completed ∧ progress job' = JInt 100.
Proof.
  unfold getJob, completeJob. intros ->. simpl. rewrite lookup_insert_eq.
  eexists. by split.
Qed.

Lemma progress_inv_extend evs e cfg :
  progress_inv evs cfg → progress_inv (evs ++ [e]) cfg.
Proof.
  unfold progress_inv. destruct cfg as [[id zp|id zp|c|] s]; simpl; try done.
  intros H job Hjob. destruct (H job Hjob) as [Hp|[Hp Hin]]; [by left|].
  right. split; [done|]. apply elem_of_app. by left.
Qed.

Lemma progress_inv_step jobId evs e cfg :
  inv jobId evs cfg → progress_inv evs cfg → progress_inv (evs ++ [e]) (step e cfg).
Proof.
  intros Hinv Hp.
  destruct cfg as [task s].
  destruct e as [|err|tree| |name| |err|err|err|ms];
    [destruct task as [id zp|id zp|c|]; try (by apply progress_inv_extend);
     try done..|].
  - (* Counted *)
    unfold inv, progress_inv in *; simpl in *. destruct Hinv as [-> H].
    intros job. rewrite getJob_updateJob.
    destruct (getJob jobId s) as [job0|] eqn:E; [|done]. intros [= <-].
    destruct (H job0 eq_refl) as (_ & H1 & _). simpl. by left.
  - (* Entry *)
    unfold progress_inv in *; simpl in *.
    intros job. rewrite getJob_updateJob.
    destruct (getJob (c_jobId c) s) as [job0|] eqn:E; [|done]. intros [= <-].
    simpl. left. unfold shown; simpl.
    destruct (c_filesProcessed c + 1 =? 0) eqn:E0; [|done].
    apply N.eqb_eq in E0. lia.
  - (* OutputClose *)
    unfold progress_inv in *; simpl in *.
    intros job. unfold on_close. rewrite getJob_updateJob.
    destruct (getJob (c_jobId c) s) as [job0|] eqn:E; [|done]. intros [= <-].
    simpl. right. split; [done|]. apply elem_of_app. right. by left.
  - (* ArchiveError *)
    unfold progress_inv in *; simpl in *.
    intros job. rewrite getJob_errorJob_total.
    destruct (getJob (c_jobId c) s) as [job0|] eqn:E; [|done]. intros [= <-].
    simpl. destruct (Hp job0 eq_refl) as [H|[H Hin]]; [by left|].
    right. split; [done|]. apply elem_of_app. by left.
  - (* OutputError *)
    unfold progress_inv in *; simpl in *.
    intros job. rewrite getJob_errorJob_total.
    destruct (getJob (c_jobId c) s) as [job0|] eqn:E; [|done]. intros [= <-].
    simpl. destruct (Hp job0 eq_refl) as [H|[H Hin]]; [by left|].
    right. split; [done|]. apply elem_of_app. by left.
  - (* FinalizeThrows *)
    unfold progress_inv in *; simpl in *.
    intros job. rewrite getJob_errorJob_total.
    destruct (getJob (c_jobId c) s) as [job0|] eqn:E; [|done]. intros [= <-].
    simpl. destruct (Hp job0 eq_refl) as [H|[H Hin]]; [by left|].
    right. split; [done|]. apply elem_of_app. by left.
  - (* Tick *)
    apply progress_inv_extend.
    assert (Hstep : step (Tick ms) (task, s) = (task, tick ms s)) by by destruct task.
    rewrite Hstep. unfold progress_inv in *; simpl in *.
    destruct task as [id zp|id zp|c|]; try done.
    intros job Hjob%tick_jobs_sub. by apply Hp.
Qed.

Lemma progress_inv_run path_join tempDir jobId folder foldername s evs :
  progress_inv evs (run evs (start_zip path_join tempDir jobId folder foldername s)).
Proof.
  induction evs as [|e evs IH] using rev_ind; [done|].
  rewrite run_snoc. eapply progress_inv_step; [apply inv_run|done].
Qed.

(** C3 fails as stated. With 23 of 40 files archived the job shows 57,
    where [round(23 / 40 * 100)] is 58: the quotient and the product are
    rounded to doubles before [Math.round] sees them. And a job whose
    output closed after 1 of 2 files and whose archiver then failed has
    status [error] and still shows the 100 of the 'close' handler. *)
Lemma C3_counterexample :
  (∃ job, getJob ex_jobId (run ex_events_23_of_40 ex_start).2 = Some job
          ∧ status job = zipping
          ∧ filesProcessed job = 23 ∧ totalFiles job = 40
          ∧ progress job = JInt 57
          ∧ spec_progressPercent 23 40 = 58%Z)
  ∧ (∃ job, getJob ex_jobId (run ex_events_close_then_error ex_start).2 = Some job
            ∧ status job = error_
            ∧ filesProcessed job = 1 ∧ totalFiles job = 2
            ∧ progress job = JInt 100
            ∧ spec_progressPercent 1 2 = 50%Z).
Proof.
  split.
  - eexists. split; [vm_compute; reflexivity|]. by repeat split.
  - eexists. split; [vm_compute; reflexivity|]. by repeat split.
Qed.

(** C3, as the code has it. Take any job started by the start route and
    any events delivered to its call of [createZipWithProgress]. Once
    [totalFiles] is positive, [progress] is an integer within one half of
    [100 * filesProcessed / totalFiles]: the percentage
    [round(filesProcessed / totalFiles * 100)] of the specification, or one
    less when the exact value lies half-way between two integers (the
    expression is evaluated in doubles); or, in a job that is no longer
    [zipping] and whose output has closed, it is the 100 the 'close'
    handler stored. In every [zipping] state and in every state before the
    output closed it is the value of the handler's expression. While the
    count is unknown it is 0, and on [completed] it is 100, whichever of
    the 'close' handler and [completeJob] makes the transition. *)
Theorem C3_progress_is_nearest_percentage
    (path_join : string → string → string) (tempDir jobId folder foldername : string)
    (s : Server) (evs : list event) (job : Job) :
  getJob jobId (run evs (start_zip path_join tempDir jobId folder foldername s)).2
    = Some job →
  (0 < totalFiles job → filesProcessed job < 2 ^ 43 →
     ∃ z, progress job = JInt z
          ∧ (((200 * Z.of_N (filesProcessed job) - Z.of_N (totalFiles job)
               ≤ 2 * Z.of_N (totalFiles job) * z
               ≤ 200 * Z.of_N (filesProcessed job) + Z.of_N (totalFiles job))%Z
              ∧ (z = spec_progressPercent (filesProcessed job) (totalFiles job)
                 ∨ (half_way (filesProcessed job) (totalFiles job)
                    ∧ z = (spec_progressPercent (filesProcessed job)
                             (totalFiles job) - 1)%Z)))
             ∨ (z = 100%Z ∧ status job ≠ zipping ∧ OutputClose ∈ evs)))
  ∧ (0 < totalFiles job → status job = zipping ∨ OutputClose ∉ evs →
       progress job = percent (filesProcessed job) (totalFiles job))
  ∧ ((∀ c, (run evs (start_zip path_join tempDir jobId folder foldername s)).1
           ≠ Streaming c) →
     totalFiles job = 0 ∧ progress job = JInt 0)
  ∧ (status job = initializing ∨ status job = counting →
       totalFiles job = 0 ∧ progress job = JInt 0)
  ∧ (status job = completed → progress job = JInt 100)
  ∧ (∀ c s', getJob (c_jobId c) s' = Some job →
       ∃ job', getJob (c_jobId c) (on_close c s') = Some job'
               ∧ status job' = completed ∧ progress job' = JInt 100)
  ∧ (∀ s', getJob jobId s' = Some job →
       ∃ job', getJob jobId (completeJob jobId s') = Some job'
               ∧ status job' = completed ∧ progress job' = JInt 100).
Proof.
  intros Hjob.
  pose proof (inv_run path_join tempDir jobId folder foldername s evs) as Hinv.
  pose proof (progress_inv_run path_join tempDir jobId folder foldername s evs)
    as Hpinv.
  destruct (run evs _) as [task s1]. unfold inv, progress_inv in Hinv, Hpinv.
  simpl in *.
  assert (Hknown : 0 < totalFiles job → status job = zipping ∨ OutputClose ∉ evs →
                   progress job = percent (filesProcessed job) (totalFiles job)).
  { intros Hpos Hor. destruct task as [id zp|id zp|c|].
    - destruct Hinv as [_ H]. destruct (H job Hjob) as (_ & _ & _ & Ht). lia.
    - destruct Hinv as [_ H]. destruct (H job Hjob) as (_ & _ & _ & Ht). lia.
    - destruct Hinv as (_ & _ & H).
      destruct (H job Hjob) as (Hfp & Htot & _ & _ & Hzip & Hopen).
      assert (Hp : progress job = shown c) by (destruct Hor; auto).
      rewrite Hp, shown_percent by lia. by rewrite <- Hfp, <- Htot.
    - destruct (Hinv job Hjob) as (_ & _ & _ & Ht). lia. }
  split; [|split; [done|split; [|split; [|split; [|split]]]]].
  - intros Hpos Hlt.
    destruct (percent_nearest (filesProcessed job) (totalFiles job) Hpos Hlt)
      as (z & Hz & Hband).
    pose proof (nearest_is_spec _ _ z Hpos Hband) as Hspec.
    destruct task as [id zp|id zp|c|].
    + destruct Hinv as [_ H]. destruct (H job Hjob) as (_ & _ & _ & Ht). lia.
    + destruct Hinv as [_ H]. destruct (H job Hjob) as (_ & _ & _ & Ht). lia.
    + destruct Hinv as (Hid & _ & H).
      destruct (H job Hjob) as (Hfp & Htot & _ & _ & Hzip & _).
      rewrite <- Hid in Hjob.
      destruct (Hpinv job Hjob) as [Hp|[Hp Hin]].
      * exists z. split.
        -- rewrite Hp, shown_percent by lia. by rewrite <- Hfp, <- Htot.
        -- by left.
      * destruct (decide (status job = zipping)) as [Hst|Hst].
        -- exists z. split.
           ++ rewrite (Hzip Hst), shown_percent by lia. by rewrite <- Hfp, <- Htot.
           ++ by left.
        -- exists 100%Z. split; [done|]. right. by repeat split.
    + destruct (Hinv job Hjob) as (_ & _ & _ & Ht). lia.
  - intros Hnot. destruct task as [id zp|id zp|c|].
    + destruct Hinv as [_ H]. by destruct (H job Hjob) as (_ & ? & _ & ?).
    + destruct Hinv as [_ H]. by destruct (H job Hjob) as (_ & ? & _ & ?).
    + by destruct (Hnot c).
    + by destruct (Hinv job Hjob) as (_ & ? & _ & ?).
  - intros Hst. destruct task as [id zp|id zp|c|].
    + destruct Hinv as [_ H]. by destruct (H job Hjob) as (_ & ? & _ & ?).
    + destruct Hinv as [_ H]. by destruct (H job Hjob) as (_ & ? & _ & ?).
    + destruct Hinv as (_ & _ & H).
      destruct (H job Hjob) as (_ & _ & [Hs|[Hs|Hs]] & _);
        rewrite Hs in Hst; by destruct Hst.
    + by destruct (Hinv job Hjob) as (_ & ? & _ & ?).
  - intros Hst. destruct task as [id zp|id zp|c|].
    + destruct Hinv as [_ H]. destruct (H job Hjob) as (Hs & _). congruence.
    + destruct Hinv as [_ H]. destruct (H job Hjob) as (Hs & _). congruence.
    + destruct Hinv as (_ & _ & H). destruct (H job Hjob) as (_ & _ & _ & Hc & _). auto.
    + destruct (Hinv job Hjob) as (Hs & _). congruence.
  - intros c s' Hs'. unfold on_close. rewrite getJob_updateJob, Hs'. simpl.
    eexists. by split.
  - intros s' Hs'. exact (getJob_completeJob jobId s' job Hs').
Qed.

Lemma C3_progress_is_nearest_percentage_witness :
  ∃ z, JInt 57 = JInt z
       ∧ (((200 * 23 - 40 ≤ 2 * 40 * z ≤ 200 * 23 + 40)%Z
           ∧ (z = spec_progressPercent 23 40
              ∨ (half_way 23 40 ∧ z = (spec_progressPercent 23 40 - 1)%Z)))
          ∨ (z = 100%Z ∧ zipping ≠ zipping ∧ OutputClose ∈ ex_events_23_of_40)).
Proof.
  pose proof (C3_progress_is_nearest_percentage ex_join ex_tempDir ex_jobId
           "/srv/data/photos" "photos" ex_server ex_events_23_of_40
           {| job_id := ex_jobId; folderPath := "/srv/data/photos";
              startTime := 1700000000000; progress := JInt 57; status := zipping;
              filesProcessed := 23; totalFiles := 40; currentFile := "img23.jpg";
              error := None; zipPath := None |}) as H.
  destruct H as [H _]; [vm_compute; reflexivity|].
  apply H; simpl; lia.
Defined.

(** The three-file scenario of the specification: 33, 67, 100. *)
Example percent_of_three :
  percent 1 3 = JInt 33 ∧ percent 2 3 = JInt 67 ∧ percent 3 3 = JInt 100.
Proof. repeat split; vm_compute; reflexivity. Qed.

(** ** An empty count *)

Lemma getJob_set_files jobId f s : getJob jobId (set_files f s) = getJob jobId s.
Proof. done. Qed.

Lemma getJob_createJob jobId folder s :
  getJob jobId (createJob jobId folder s)
  = Some {| job_id := jobId; folderPath := folder; startTime := now s;
            progress := JInt 0; status := initializing; filesProcessed := 0;
            totalFiles := 0; currentFile := EmptyString; error := None;
            zipPath := None |}.
Proof. unfold getJob, createJob; simpl. apply lookup_insert_eq. Qed.

(** C4, as the code has it. When [countFilesRecursive] returns 0, the job
    enters [zipping] with [totalFiles] = 0 and [progress] still 0; if the
    archiver then emits no entry, [progress] becomes 100 only when the
    output closes and the job is marked [completed]. *)
Theorem C4_empty_count_stays_at_zero_until_close
    (path_join : string → string → string) (tempDir jobId folder foldername : string)
    (s : Server) (tree : node) :
  countFilesRecursive tree = 0 →
  (∃ job,
     getJob jobId
       (run [MkdirOk; Counted tree; OutputOpen]
          (start_zip path_join tempDir jobId folder foldername s)).2 = Some job
     ∧ status job = zipping ∧ totalFiles job = 0 ∧ progress job = JInt 0)
  ∧ (∃ job,
       getJob jobId
         (run [MkdirOk; Counted tree; OutputOpen; OutputClose]
            (start_zip path_join tempDir jobId folder foldername s)).2 = Some job
       ∧ status job = completed ∧ totalFiles job = 0 ∧ progress job = JInt 100).
Proof.
  intros Hcount. unfold run, start_zip; simpl. rewrite Hcount.
  unfold on_close.
  repeat (simpl; first [ rewrite getJob_set_files | rewrite getJob_updateJob
                       | rewrite getJob_createJob ]).
  split; eexists; (split; [reflexivity|]); by simpl.
Qed.

Lemma C4_empty_count_stays_at_zero_until_close_witness :
  (∃ job,
     getJob ex_jobId (run [MkdirOk; Counted (Dir []); OutputOpen] ex_start).2 = Some job
     ∧ status job = zipping ∧ totalFiles job = 0 ∧ progress job = JInt 0)
  ∧ (∃ job,
       getJob ex_jobId
         (run [MkdirOk; Counted (Dir []); OutputOpen; OutputClose] ex_start).2 = Some job
       ∧ status job = completed ∧ totalFiles job = 0 ∧ progress job = JInt 100).
Proof.
  apply (C4_empty_count_stays_at_zero_until_close ex_join ex_tempDir ex_jobId
           "/srv/data/photos" "photos" ex_server (Dir [])).
  reflexivity.
Defined.

(** C4 fails as stated: for an empty folder the job enters [zipping] with
    [progress] 0, not 100; and for a folder that holds only an empty
    sub-folder the count is 0 as well, the archiver emits one entry, and the
    handler divides 1 by 0: the stored [progress] is [Infinity]. *)
Lemma C4_counterexample :
  (∃ job,
     getJob ex_jobId (run [MkdirOk; Counted (Dir [])] ex_start).2 = Some job
     ∧ status job = zipping ∧ totalFiles job = 0
     ∧ progress job = JInt 0 ∧ progress job ≠ JInt 100)
  ∧ countFilesRecursive ex_tree_dirs_only = 0
  ∧ ∃ job,
      getJob ex_jobId
        (run [MkdirOk; Counted ex_tree_dirs_only; OutputOpen; Entry "sub/"] ex_start).2
      = Some job
      ∧ status job = zipping ∧ totalFiles job = 0 ∧ progress job = JInfinity.
Proof.
  split; [|split; [reflexivity|]].
  - eexists. split; [vm_compute; reflexivity|]. by simpl.
  - eexists. split; [vm_compute; reflexivity|]. by simpl.
Qed.

(** ** Eviction *)

(** The sibling path: a job put into [error] by [errorJob] leaves the
    registry once thirty seconds have passed. *)
Lemma errorJob_evicts jobId err s job ms :
  getJob jobId s = Some job → 30000 ≤ ms →
  getJob jobId (tick ms (errorJob jobId err s)) = None.
Proof.
  intros Hjob Hms. apply (tick_jobs_evict _ _ _ (now s + 30000)).
  - rewrite (errorJob_timers _ _ _ _ Hjob). apply elem_of_app. right. by left.
  - destruct (errorJob_frame jobId err s) as [_ ->]. lia.
Qed.

Lemma completeJob_evicts jobId s job ms :
  getJob jobId s = Some job → 30000 ≤ ms →
  getJob jobId (tick ms (completeJob jobId s)) = None.
Proof.
  intros Hjob Hms. apply (tick_jobs_evict _ _ _ (now s + 30000)).
  - unfold getJob in Hjob. unfold completeJob. rewrite Hjob. simpl.
    apply elem_of_app. right. by left.
  - unfold getJob in Hjob. unfold completeJob. rewrite Hjob. simpl. lia.
Qed.

Lemma run_entries names c s :
  is_Some (getJob (c_jobId c) s) →
  ∃ c' s', run (Entry <$> names) (Streaming c, s) = (Streaming c', s')
    ∧ c_jobId c' = c_jobId c ∧ c_zipPath c' = c_zipPath c
    ∧ is_Some (getJob (c_jobId c) s')
    ∧ timers s' = timers s ∧ files s' = files s.
Proof.
  revert c s. induction names as [|name names IH]; intros c s Hjob.
  - exists c, s. by repeat split.
  - simpl.
    destruct (IH (mkClosure (c_jobId c) (c_zipPath c) (c_totalFiles c)
                    (c_filesProcessed c + 1))
                 (updateJob (c_jobId c)
                    {| u_progress := Some (percent (c_filesProcessed c + 1)
                                             (c_totalFiles c));
                       u_status := Some zipping;
                       u_filesProcessed := Some (c_filesProcessed c + 1);
                       u_totalFiles := None;
                       u_currentFile := Some name;
                       u_zipPath := None |} s))
      as (c' & s' & Hrun & Hid & Hzp & Hjob' & Htm & Hfs).
    { simpl. rewrite getJob_updateJob. destruct Hjob as [j ->]. by eexists. }
    exists c', s'. simpl in *.
    destruct (updateJob_frame (c_jobId c)
      {| u_progress := Some (percent (c_filesProcessed c + 1) (c_totalFiles c));
         u_status := Some zipping;
         u_filesProcessed := Some (c_filesProcessed c + 1);
         u_totalFiles := None; u_currentFile := Some name; u_zipPath := None |} s)
      as (Hf & Ht & _).
    repeat split; try done; congruence.
Qed.

Lemma run_ticks jobId delays task s :
  (∀ t, (t, DeleteJob jobId) ∉ timers s) →
  ∃ s', run (Tick <$> delays) (task, s) = (task, s')
    ∧ getJob jobId s' = getJob jobId s
    ∧ (∀ t, (t, DeleteJob jobId) ∉ timers s').
Proof.
  revert s. induction delays as [|ms delays IH]; intros s Hquiet.
  - by exists s.
  - change (run (Tick <$> ms :: delays) (task, s))
      with (run (Tick <$> delays) (step (Tick ms) (task, s))).
    assert (Hstep : step (Tick ms) (task, s) = (task, tick ms s)) by by destruct task.
    rewrite Hstep.
    destruct (IH (tick ms s)) as (s' & Hrun & Hjob & Hq).
    { intros t Hin. destruct (tick_frame ms s) as [Htm _]. rewrite Htm in Hin.
      apply list_elem_of_filter in Hin as [_ Hin]. by apply (Hquiet t). }
    exists s'. split; [done|]. split; [|done].
    rewrite Hjob. apply tick_jobs_keep. intros t Hin. by apply Hquiet in Hin.
Qed.

(** C5 on the path the code takes when an archive succeeds. The job is
    started while no eviction of it is pending; the temp directory is
    there, the count resolves, the archiver emits its entries and the output
    closes. The 'close' handler marks the job [completed] through
    [updateJob], which sets no timer: however much time then passes, the job
    is still registered, still [completed], and no eviction of it is
    pending. *)
Theorem C5_job_completed_by_close_is_never_evicted
    (path_join : string → string → string) (tempDir jobId folder foldername : string)
    (s : Server) (tree : node) (names : list string) (delays : list N) :
  (∀ t, (t, DeleteJob jobId) ∉ timers s) →
  ∃ job final,
    (run ([MkdirOk; Counted tree; OutputOpen] ++ (Entry <$> names)
          ++ [OutputClose] ++ (Tick <$> delays))
       (start_zip path_join tempDir jobId folder foldername s)).2 = final
    ∧ getJob jobId final = Some job
    ∧ status job = completed
    ∧ ∀ t, (t, DeleteJob jobId) ∉ timers final.
Proof.
  intros Hquiet. rewrite !run_app.
  set (c0 := mkClosure jobId (make_zipPath path_join tempDir foldername (now s))
               (countFilesRecursive tree) 0).
  assert (H0 : ∃ s0, run [MkdirOk; Counted tree; OutputOpen]
                       (start_zip path_join tempDir jobId folder foldername s)
                     = (Streaming c0, s0)
                     ∧ is_Some (getJob jobId s0) ∧ timers s0 = timers s).
  { eexists. split; [reflexivity|]. split.
    - repeat (simpl; first [ rewrite getJob_set_files | rewrite getJob_updateJob
                           | rewrite getJob_createJob ]).
      by eexists.
    - simpl.
      repeat match goal with
             | |- context [updateJob ?i ?u ?x] =>
                 let H := fresh in
                 destruct (updateJob_frame i u x) as (_ & H & _); rewrite H; clear H
             end.
      done. }
  destruct H0 as (s0 & -> & Hj0 & Ht0).
  destruct (run_entries names c0 s0 Hj0) as (c1 & s1 & -> & Hid & _ & Hj1 & Ht1 & _).
  simpl in Hj1. destruct Hj1 as [j1 Hj1].
  change (run [OutputClose] (Streaming c1, s1)) with (Streaming c1, on_close c1 s1).
  destruct (run_ticks jobId delays (Streaming c1) (on_close c1 s1))
    as (s2 & -> & Hj2 & Hq2).
  { intros t. unfold on_close.
    destruct (updateJob_frame (c_jobId c1)
      {| u_progress := Some (JInt 100); u_status := Some completed;
         u_filesProcessed := None; u_totalFiles := None;
         u_currentFile := Some "Completed"; u_zipPath := Some (c_zipPath c1) |} s1)
      as (_ & -> & _).
    rewrite Ht1, Ht0. apply Hquiet. }
  eexists _, s2. split; [reflexivity|]. split; [|split; [|done]].
  - rewrite Hj2. unfold on_close. rewrite Hid. simpl.
    rewrite getJob_updateJob, Hj1. reflexivity.
  - done.
Qed.

Lemma C5_job_completed_by_close_is_never_evicted_witness :
  ∃ job final,
    (run ([MkdirOk; Counted ex_tree_flat; OutputOpen] ++ (Entry <$> ["a.txt"; "b.txt"])
          ++ [OutputClose] ++ (Tick <$> [30000; 3600000]))
       ex_start).2 = final
    ∧ getJob ex_jobId final = Some job
    ∧ status job = completed
    ∧ ∀ t, (t, DeleteJob ex_jobId) ∉ timers final.
Proof.
  apply (C5_job_completed_by_close_is_never_evicted ex_join ex_tempDir ex_jobId
           "/srv/data/photos" "photos" ex_server ex_tree_flat
           ["a.txt"; "b.txt"] [30000; 3600000]).
  intros t Hin. vm_compute in Hin. inversion Hin.
Defined.

(** ** Failures *)

(** C6, as the code has it. A failure reported by the archiver ('error'), by
    the write stream ('error') or thrown inside the [try] block reaches
    [errorJob] (as does a failing [fs.mkdir], before any handler exists):
    the registered job gets status [error] and the failure's message, and
    its eviction is scheduled. The handlers stay registered
    and no file is removed: the temp directory holds what it held. As long
    as the job has status [error], the download route answers 400 "Job not
    completed". *)
Theorem C6_failure_marks_error_and_keeps_file
    (path_basename : string → string) (c : Closure) (s : Server) (job : Job)
    (err : Error) (e : event) :
  e = ArchiveError err ∨ e = OutputError err ∨ e = FinalizeThrows err →
  getJob (c_jobId c) s = Some job →
  (step e (Streaming c, s)).1 = Streaming c
  ∧ (step e (Streaming c, s)).2 = errorJob (c_jobId c) err s
  ∧ files (step e (Streaming c, s)).2 = files s
  ∧ timers (step e (Streaming c, s)).2
    = (timers s ++ [(now s + 30000, DeleteJob (c_jobId c))])%list
  ∧ (∃ job', getJob (c_jobId c) (step e (Streaming c, s)).2 = Some job'
             ∧ status job' = error_ ∧ error job' = Some err)
  ∧ download_zip path_basename (c_jobId c) (step e (Streaming c, s)).2
    = JsonError 400 "Job not completed"
  ∧ (∀ zp, step (MkdirThrows err) (Setup (c_jobId c) zp, s)
           = (Abandoned, errorJob (c_jobId c) err s)).
Proof.
  intros He Hjob.
  assert (Hstep : step e (Streaming c, s) = (Streaming c, errorJob (c_jobId c) err s))
    by (by destruct He as [->|[->| ->]]).
  rewrite Hstep. simpl.
  destruct (getJob_errorJob _ err _ _ Hjob) as (job' & Hjob' & Hst & Herr & _).
  split; [done|]. split; [done|].
  split; [by destruct (errorJob_frame (c_jobId c) err s)|].
  split; [by apply (errorJob_timers _ _ _ job)|].
  split; [by exists job'|]. split; [|done].
  unfold download_zip. rewrite Hjob'.
  destruct (decide (status job' ≠ completed)) as [|Hn]; [done|].
  exfalso. apply Hn. by rewrite Hst.
Qed.

Lemma C6_failure_marks_error_and_keeps_file_witness :
  ex_zipPath ∈ files (run ex_events_archive_error ex_start).2
  ∧ download_zip ex_basename ex_jobId (run ex_events_archive_error ex_start).2
    = JsonError 400 "Job not completed".
Proof.
  pose proof (C6_failure_marks_error_and_keeps_file ex_basename
    (mkClosure ex_jobId ex_zipPath 2 1)
    (run [MkdirOk; Counted ex_tree_flat; OutputOpen; Entry "a.txt"] ex_start).2
    {| job_id := ex_jobId; folderPath := "/srv/data/photos";
       startTime := 1700000000000; progress := JInt 50; status := zipping;
       filesProcessed := 1; totalFiles := 2; currentFile := "a.txt";
       error := None; zipPath := None |}
    "EACCES" (ArchiveError "EACCES") (or_introl eq_refl)) as H.
  destruct H as (_ & _ & Hfiles & _ & _ & Hdl & _); [vm_compute; reflexivity|].
  split; [|exact Hdl].
  change (ex_zipPath ∈ files (step (ArchiveError "EACCES")
    (Streaming (mkClosure ex_jobId ex_zipPath 2 1),
     (run [MkdirOk; Counted ex_tree_flat; OutputOpen; Entry "a.txt"] ex_start).2)).2).
  rewrite Hfiles.
  apply (bool_decide_unpack
    (ex_zipPath ∈ files (run [MkdirOk; Counted ex_tree_flat; OutputOpen; Entry "a.txt"]
                           ex_start).2)).
  vm_compute. exact I.
Defined.

(** C6 fails as stated: after the archiver's failure the job has status
    [error] and the message, but the partly written file is still in the
    temp directory; and when the write stream fails and then closes, the
    'close' handler marks the job [completed], after which the download
    route hands out that file. *)
Lemma C6_counterexample :
  (∃ job, getJob ex_jobId (run ex_events_archive_error ex_start).2 = Some job
          ∧ status job = error_ ∧ error job = Some "EACCES")
  ∧ ex_zipPath ∈ files (run ex_events_archive_error ex_start).2
  ∧ download_zip ex_basename ex_jobId (run ex_events_error_then_close ex_start).2
    = Download ex_zipPath "photos_1700000000000.zip".
Proof.
  split; [|split].
  - eexists. split; [vm_compute; reflexivity|]. by simpl.
  - apply (bool_decide_unpack
             (ex_zipPath ∈ files (run ex_events_archive_error ex_start).2)).
    vm_compute. exact I.
  - vm_compute. reflexivity.
Qed.


(** * The rest of the server: properties *)

(** ** Stripping slashes and validating a path *)

Lemma drop_leading_slashes_no_lead s rest :
  drop_leading_slashes s ≠ String "/" rest.
Proof.
  induction s as [|c s IH]; simpl; [done|].
  destruct (decide (c = "/"%char)) as [->|Hc]; [done|]. by intros [= ->].
Qed.

Lemma drop_trailing_slashes_head c s :
  c ≠ "/"%char → ∃ rest, drop_trailing_slashes (String c s) = String c rest.
Proof.
  intros Hc. simpl. destruct (drop_trailing_slashes s); [|by eexists].
  destruct (decide (c = "/"%char)); [done|by eexists].
Qed.

Lemma drop_trailing_slashes_no_trail s pre :
  drop_trailing_slashes s ≠ pre +:+ "/".
Proof.
  revert pre. induction s as [|c s IH]; intros pre; simpl.
  - by destruct pre.
  - destruct (drop_trailing_slashes s) as [|c' s'] eqn:E.
    + destruct (decide (c = "/"%char)) as [->|Hc]; [by destruct pre|].
      destruct pre as [|c1 [|c2 pre]]; simpl; try done. by intros [= ->].
    + destruct pre as [|c1 pre]; simpl; [done|].
      intros [= -> H]. by apply (IH pre).
Qed.

Lemma drop_trailing_slashes_idemp s :
  drop_trailing_slashes (drop_trailing_slashes s) = drop_trailing_slashes s.
Proof.
  induction s as [|c s IH]; simpl; [done|].
  destruct (drop_trailing_slashes s) as [|c' s'] eqn:E.
  - destruct (decide (c = "/"%char)) as [->|Hc]; [done|].
    simpl. by destruct (decide (c = "/"%char)).
  - change (drop_trailing_slashes (String c (String c' s')))
      with (match drop_trailing_slashes (String c' s') with
            | EmptyString =>
                if decide (c = "/"%char) then EmptyString else String c EmptyString
            | String a b => String c (String a b)
            end).
    by rewrite IH.
Qed.

Lemma drop_leading_slashes_id s :
  (∀ rest, s ≠ String "/" rest) → drop_leading_slashes s = s.
Proof.
  destruct s as [|c s]; simpl; [done|]. intros H.
  destruct (decide (c = "/"%char)) as [->|]; [by destruct (H s)|done].
Qed.

Lemma strip_slashes_no_lead s rest : strip_slashes s ≠ String "/" rest.
Proof.
  unfold strip_slashes.
  pose proof (drop_leading_slashes_no_lead s) as Hlead.
  destruct (drop_leading_slashes s) as [|c s'] eqn:E; [done|].
  destruct (decide (c = "/"%char)) as [->|Hc]; [by destruct (Hlead s')|].
  destruct (drop_trailing_slashes_head c s' Hc) as [r ->]. by intros [= ->].
Qed.

(** What [getValidatedPath] hands to [path.resolve] never starts and never
    ends with a slash (so it is never an absolute path), and stripping it
    again changes nothing; a path without any slash is left as it is, and
    the paths that become the empty path are exactly those made of slashes
    only (the empty path among them). *)
Theorem strip_slashes_clean (relativePath : string) :
  (∀ rest, strip_slashes relativePath ≠ String "/" rest)
  ∧ (∀ pre, strip_slashes relativePath ≠ pre +:+ "/")
  ∧ strip_slashes (strip_slashes relativePath) = strip_slashes relativePath
  ∧ (contains_char "/" relativePath = false →
     strip_slashes relativePath = relativePath)
  ∧ (only_char "/" relativePath = true ↔ strip_slashes relativePath = "").
Proof.
  split; [apply strip_slashes_no_lead|].
  split; [intros pre; apply drop_trailing_slashes_no_trail|].
  split; [|split].
  - unfold strip_slashes at 1.
    rewrite drop_leading_slashes_id by apply strip_slashes_no_lead.
    apply drop_trailing_slashes_idemp.
  - intros Hno. unfold strip_slashes.
    assert (Hl : drop_leading_slashes relativePath = relativePath).
    { destruct relativePath as [|c s]; simpl in *; [done|].
      destruct (decide (c = "/"%char)) as [->|]; [done|done]. }
    rewrite Hl. clear Hl.
    induction relativePath as [|c s IH]; simpl in *; [done|].
    apply orb_false_iff in Hno as [Hc Hs]. rewrite (IH Hs).
    apply bool_decide_eq_false in Hc.
    destruct s; [|done]. by destruct (decide (c = "/"%char)).
  - unfold strip_slashes. induction relativePath as [|c s IH]; simpl; [done|].
    destruct (decide (c = "/"%char)) as [->|Hc].
    + rewrite bool_decide_eq_true_2 by done. exact IH.
    + rewrite bool_decide_eq_false_2 by done. simpl. split; [done|].
      destruct (drop_trailing_slashes s); [|done].
      by destruct (decide (c = "/"%char)).
Qed.

Lemma strip_slashes_clean_witness :
  strip_slashes "photos" = "photos" ∧ strip_slashes "///" = "".
Proof.
  split.
  - apply (strip_slashes_clean "photos"). reflexivity.
  - apply (strip_slashes_clean "///"). reflexivity.
Defined.

Lemma prefix_app a b : String.prefix a (a +:+ b) = true.
Proof.
  induction a as [|c a IH]; simpl; [by destruct b|].
  destruct (Ascii.ascii_dec c c); [done|done].
Qed.

Lemma prefix_true a b : String.prefix a b = true → ∃ c, b = a +:+ c.
Proof.
  revert b. induction a as [|x a IH]; intros b; simpl.
  - intros _. by exists b.
  - destruct b as [|y b]; simpl; [done|].
    destruct (Ascii.ascii_dec x y) as [->|]; [|done].
    intros [c ->]%IH. by exists c.
Qed.

(** [getValidatedPath] compares characters, not path components. Whatever
    follows the characters of [absoluteTargetDir] in the resolved path, the
    path is accepted: also when what follows does not start with a
    separator, that is, when the path lies in a sibling directory whose name
    begins with the name of the served one. It throws exactly when the
    resolved path does not begin with those characters. *)
Theorem getValidatedPath_accepts_any_continuation
    (path_resolve : string → string → string)
    (absoluteTargetDir relativePath continuation : string) :
  path_resolve absoluteTargetDir (strip_slashes relativePath)
    = absoluteTargetDir +:+ continuation →
  getValidatedPath path_resolve absoluteTargetDir relativePath
    = Ok (absoluteTargetDir +:+ continuation)
  ∧ ∀ other,
      (getValidatedPath path_resolve absoluteTargetDir other
         = Throw "Access denied: Path outside allowed directory"
       ↔ ¬ ∃ rest, path_resolve absoluteTargetDir (strip_slashes other)
                   = absoluteTargetDir +:+ rest).
Proof.
  intros Hres. split.
  - unfold getValidatedPath. rewrite Hres, prefix_app. done.
  - intros other. unfold getValidatedPath.
    destruct (String.prefix absoluteTargetDir
                (path_resolve absoluteTargetDir (strip_slashes other))) eqn:E; simpl.
    + split; [done|]. intros Hn. destruct Hn. by apply prefix_true.
    + split; [|done]. intros _ [rest Hrest].
      rewrite Hrest, prefix_app in E. done.
Qed.

Lemma getValidatedPath_accepts_any_continuation_witness :
  getValidatedPath ex_resolve ex_targetDir "../data-secret/keys"
  = Ok "/srv/data-secret/keys".
Proof.
  apply (getValidatedPath_accepts_any_continuation ex_resolve ex_targetDir
           "../data-secret/keys" "-secret/keys").
  vm_compute. reflexivity.
Defined.

(** ** The table of viewable types *)

Lemma literal_get_elem_of literal key value :
  literal_get literal key = Some value → (key, value) ∈ literal.
Proof.
  induction literal as [|[k v] rest IH]; simpl; [done|].
  destruct (literal_get rest key) as [later|].
  - intros [= <-]. right. by apply IH.
  - destruct (decide (k = key)) as [->|]; [|done]. intros [= <-]. by left.
Qed.

Lemma mimeTypes_all_have_viewer :
  Forall (λ p, viewerType_of p.2 ≠ unsupported) mimeTypes_literal.
Proof. apply (bool_decide_unpack _). vm_compute. exact I. Qed.

Lemma mimeTypes_video_ogg_key :
  Forall (λ p, p.2 = "video/ogg" → p.1 = ".ogg") mimeTypes_literal.
Proof. apply (bool_decide_unpack _). vm_compute. exact I. Qed.

(** Every extension of the table has a viewer: [getFileViewInfo] reports a
    file as viewable exactly when its viewer type is not 'unsupported', and
    a file that is not viewable gets the MIME type
    application/octet-stream. *)
Theorem getFileViewInfo_viewable_iff_supported
    (path_extname : string → string) (path_basename_ext : string → string → string)
    (toLowerCase : string → string) (filename : string) :
  (isViewable (getFileViewInfo path_extname path_basename_ext toLowerCase filename)
     = true
   ↔ viewerType (getFileViewInfo path_extname path_basename_ext toLowerCase filename)
     ≠ unsupported)
  ∧ (isViewable (getFileViewInfo path_extname path_basename_ext toLowerCase filename)
       = false
     ↔ mimeType (getFileViewInfo path_extname path_basename_ext toLowerCase filename)
       = "application/octet-stream").
Proof.
  unfold getFileViewInfo.
  destruct (literal_get mimeTypes_literal (toLowerCase (path_extname filename)))
    as [m|] eqn:E; simpl.
  - apply literal_get_elem_of in E.
    pose proof (proj1 (Forall_forall _ _) mimeTypes_all_have_viewer _ E) as Hv.
    simpl in Hv. split; [by split|].
    split; [done|]. intros ->. exfalso.
    assert (Hno : Forall (λ p, p.2 ≠ "application/octet-stream") mimeTypes_literal)
      by (apply (bool_decide_unpack _); vm_compute; exact I).
    by apply (proj1 (Forall_forall _ _) Hno _ E).
  - by split; split.
Qed.

(** The key '.ogg' occurs twice in the table, first as video/ogg and then as
    audio/ogg; the later entry is the one that is read. No file name is ever
    given the MIME type video/ogg, and a name whose extension is .ogg gets
    the audio viewer. *)
Theorem getFileViewInfo_ogg_is_audio
    (path_extname : string → string) (path_basename_ext : string → string → string)
    (toLowerCase : string → string) (filename : string) :
  mimeType (getFileViewInfo path_extname path_basename_ext toLowerCase filename)
    ≠ "video/ogg"
  ∧ (toLowerCase (path_extname filename) = ".ogg" →
     mimeType (getFileViewInfo path_extname path_basename_ext toLowerCase filename)
       = "audio/ogg"
     ∧ viewerType (getFileViewInfo path_extname path_basename_ext toLowerCase filename)
       = audio).
Proof.
  unfold getFileViewInfo. split.
  - destruct (literal_get mimeTypes_literal (toLowerCase (path_extname filename)))
      as [m|] eqn:E; simpl; [|done].
    intros ->. pose proof (literal_get_elem_of _ _ _ E) as Hin.
    pose proof (proj1 (Forall_forall _ _) mimeTypes_video_ogg_key _ Hin eq_refl) as Hk.
    simpl in Hk. rewrite Hk in E. vm_compute in E. discriminate E.
  - intros ->. split; vm_compute; reflexivity.
Qed.

Lemma getFileViewInfo_ogg_is_audio_witness :
  mimeType (getFileViewInfo ex_extname ex_basename_ext ex_toLowerCase "Song.OGG") = "audio/ogg"
  ∧ viewerType (getFileViewInfo ex_extname ex_basename_ext ex_toLowerCase "Song.OGG") = audio.
Proof.
  apply (getFileViewInfo_ogg_is_audio ex_extname ex_basename_ext ex_toLowerCase "Song.OGG").
  reflexivity.
Defined.

(** ** The file routes *)

(** /api/view streams only what exists, is not a directory and has a viewer:
    the stream's length is the file's size, its content type is the type
    the table gives the lower-cased extension, with "; charset=utf-8"
    appended exactly for the text viewer, and it is never the fallback
    application/octet-stream. *)
Theorem view_file_streams_only_viewable_files
    (path_resolve path_join : string → string → string)
    (path_extname : string → string) (path_basename_ext : string → string → string)
    (toLowerCase : string → string) (absoluteTargetDir : string)
    (stat : string → option Stats)
    (filename : string) (query_path : option string)
    (filePath contentType : string) (contentLength : N) :
  view_file path_resolve path_join path_extname path_basename_ext toLowerCase
    absoluteTargetDir stat filename query_path
  = ViewStream filePath contentType contentLength →
  ∃ currentDir stats m,
    getValidatedPath path_resolve absoluteTargetDir (or_default query_path "")
      = Ok currentDir
    ∧ filePath = path_join currentDir filename
    ∧ stat filePath = Some stats
    ∧ isDirectory stats = false
    ∧ contentLength = size stats
    ∧ literal_get mimeTypes_literal (toLowerCase (path_extname filename)) = Some m
    ∧ viewerType_of m ≠ unsupported
    ∧ contentType = (if decide (viewerType_of m = text)
                     then m +:+ "; charset=utf-8" else m)
    ∧ contentType ≠ "application/octet-stream".
Proof.
  unfold view_file.
  destruct (getValidatedPath _ _ _) as [currentDir|err]; [|done].
  destruct (stat (path_join currentDir filename)) as [stats|] eqn:Hstat; [|done].
  destruct (isDirectory stats) eqn:Hdir; [done|].
  unfold getFileViewInfo.
  destruct (literal_get mimeTypes_literal (toLowerCase (path_extname filename)))
    as [m|] eqn:E; simpl; [|done].
  intros [= <- <- <-].
  exists currentDir, stats, m.
  pose proof (literal_get_elem_of _ _ _ E) as Hin.
  pose proof (proj1 (Forall_forall _ _) mimeTypes_all_have_viewer _ Hin) as Hv.
  simpl in Hv. repeat split; try done.
  assert (Hno : Forall (λ p, (if decide (viewerType_of p.2 = text)
                              then p.2 +:+ "; charset=utf-8" else p.2)
                             ≠ "application/octet-stream") mimeTypes_literal)
    by (apply (bool_decide_unpack _); vm_compute; exact I).
  exact (proj1 (Forall_forall _ _) Hno _ Hin).
Qed.

Lemma view_file_streams_only_viewable_files_witness :
  ∃ currentDir stats m,
    getValidatedPath ex_resolve ex_targetDir (or_default None "") = Ok currentDir
    ∧ "/srv/data/notes.txt" = ex_join currentDir "notes.txt"
    ∧ ex_stat "/srv/data/notes.txt" = Some stats
    ∧ isDirectory stats = false
    ∧ 120 = size stats
    ∧ literal_get mimeTypes_literal (ex_toLowerCase (ex_extname "notes.txt")) = Some m
    ∧ viewerType_of m ≠ unsupported
    ∧ "text/plain; charset=utf-8"
      = (if decide (viewerType_of m = text) then m +:+ "; charset=utf-8" else m)
    ∧ "text/plain; charset=utf-8" ≠ "application/octet-stream".
Proof.
  apply (view_file_streams_only_viewable_files ex_resolve ex_join ex_extname
           ex_basename_ext ex_toLowerCase ex_targetDir ex_stat "notes.txt" None).
  vm_compute. reflexivity.
Defined.

Lemma promise_all_Throw {A B} (f : A → result B) (items : list A) (item : A) err :
  item ∈ items → f item = Throw err → ∃ err', promise_all f items = Throw err'.
Proof.
  induction items as [|x items IH]; intros Hin Hf; [inversion Hin|].
  apply elem_of_cons in Hin as [->|Hin]; simpl.
  - rewrite Hf. by eexists.
  - destruct (IH Hin Hf) as [err' ->]. destruct (f x); by eexists.
Qed.

Lemma promise_all_Ok {A B} (f : A → result B) (g : A → B) (items : list A) :
  (∀ item, item ∈ items → f item = Ok (g item)) →
  promise_all f items = Ok (g <$> items).
Proof.
  induction items as [|x items IH]; intros H; simpl; [done|].
  rewrite (H x) by by left.
  rewrite IH; [done|]. intros item Hin. apply H. by right.
Qed.

(** /api/files is all or nothing. If one name of the listing cannot be
    stat-ed (a dangling link, a file deleted in between), the whole request
    is answered 500 "Failed to read directory". If every name can, the
    answer has one element per name, in the order of [readdir], with [..]
    put in front exactly when the query path is a non-empty string; and no
    directory of the listing is marked viewable. *)
Theorem list_files_all_or_nothing
    (path_resolve path_join : string → string → string)
    (path_extname : string → string) (path_basename_ext : string → string → string)
    (toLowerCase : string → string) (absoluteTargetDir : string)
    (stat : string → option Stats) (readdir : string → result (list string))
    (stat_error : string → Error)
    (query_path : option string) (date_now fullCurrentPath : string)
    (files : list string) :
  getValidatedPath path_resolve absoluteTargetDir (or_default query_path "")
    = Ok fullCurrentPath →
  readdir fullCurrentPath = Ok files →
  ((∃ file, file ∈ files ∧ stat (path_join fullCurrentPath file) = None) →
   list_files path_resolve path_join path_extname path_basename_ext toLowerCase
     absoluteTargetDir stat readdir stat_error query_path date_now
   = FilesError 500 "Failed to read directory")
  ∧ ((∀ file, file ∈ files → is_Some (stat (path_join fullCurrentPath file))) →
     ∃ fileDetails,
       list_files path_resolve path_join path_extname path_basename_ext toLowerCase
         absoluteTargetDir stat readdir stat_error query_path date_now
       = FilesJson fileDetails
       ∧ fd_name <$> fileDetails
         = (if decide (or_default query_path "" = "") then files else ".." :: files)
       ∧ ∀ d, d ∈ fileDetails → fd_isDirectory d = true → fd_isViewable d = false).
Proof.
  intros Hval Hread. unfold list_files. rewrite Hval, Hread. split.
  - intros (file & Hin & Hstat).
    destruct (promise_all_Throw (file_detail path_join path_extname path_basename_ext
                toLowerCase stat stat_error fullCurrentPath) files file
                (stat_error (path_join fullCurrentPath file)) Hin) as [err' ->];
      [|done].
    unfold file_detail. by rewrite Hstat.
  - intros Hall.
    set (g := λ file,
           match file_detail path_join path_extname path_basename_ext toLowerCase
                   stat stat_error fullCurrentPath file with
           | Ok d => d
           | Throw _ => parent_entry date_now
           end).
    rewrite (promise_all_Ok _ g).
    2:{ intros file Hin. unfold g. destruct (Hall file Hin) as [st Hst].
        unfold file_detail. rewrite Hst. by destruct (isDirectory st). }
    assert (Hnames : fd_name <$> (g <$> files) = files).
    { clear Hread. induction files as [|file files IH]; [done|].
      rewrite !fmap_cons. f_equal; [|apply IH; intros f Hf; apply Hall; by right].
      unfold g, file_detail.
      destruct (Hall file ltac:(by left)) as [st ->]. by destruct (isDirectory st). }
    assert (Hdirs : ∀ d, d ∈ g <$> files → fd_isDirectory d = true →
                         fd_isViewable d = false).
    { intros d [file [-> Hin]]%list_elem_of_fmap. unfold g, file_detail.
      destruct (Hall file Hin) as [st ->]. by destruct (isDirectory st). }
    destruct (decide (or_default query_path "" = "")).
    + eexists. split; [done|]. by split.
    + eexists. split; [done|]. split; [by rewrite fmap_cons, Hnames|].
      intros d [->|Hin]%elem_of_cons; [done|by apply Hdirs].
Qed.

Lemma list_files_all_or_nothing_witness :
  list_files ex_resolve ex_join ex_extname ex_basename_ext ex_toLowerCase
    ex_targetDir ex_stat ex_readdir ex_stat_error (Some "photos") "2024-02-01T00:00:00.000Z"
  = FilesError 500 "Failed to read directory"
  ∧ ∃ fileDetails,
      list_files ex_resolve ex_join ex_extname ex_basename_ext ex_toLowerCase
        ex_targetDir ex_stat ex_readdir ex_stat_error (Some "/")
        "2024-02-01T00:00:00.000Z"
      = FilesJson fileDetails
      ∧ fd_name <$> fileDetails
        = [".."; "notes.txt"; "cat.PNG"; "backup.tar"; "photos"].
Proof.
  split.
  - apply (list_files_all_or_nothing ex_resolve ex_join ex_extname ex_basename_ext
             ex_toLowerCase ex_targetDir ex_stat ex_readdir ex_stat_error
             (Some "photos") "2024-02-01T00:00:00.000Z" "/srv/data/photos"
             ["a.txt"; "dangling"]); [vm_compute; reflexivity..|].
    exists "dangling". split; [by right; left|vm_compute; reflexivity].
  - destruct (list_files_all_or_nothing ex_resolve ex_join ex_extname ex_basename_ext
             ex_toLowerCase ex_targetDir ex_stat ex_readdir ex_stat_error
             (Some "/") "2024-02-01T00:00:00.000Z" "/srv/data"
             ["notes.txt"; "cat.PNG"; "backup.tar"; "photos"]) as [_ H];
      [vm_compute; reflexivity..|].
    destruct H as (fileDetails & H1 & H2 & _).
    + intros file Hin. repeat (apply elem_of_cons in Hin as [->|Hin]);
        [by eexists..|inversion Hin].
    + exists fileDetails. split; [exact H1|exact H2].
Defined.

(** POST /api/start-zip creates a job only after the folder checks. When the
    path is rejected, the folder is missing or the path is not a directory,
    the answer is an error and the server state is exactly what it was: no
    job, no task. When the route answers with a job id, the folder exists
    and is a directory, and the job of that id is registered with zero
    counters; the id carries the first reading of the clock, [startTime]
    the second and the name of the ZIP file the third. If the temp
    directory exists the job is already [counting] when the answer is
    sent, otherwise it is still [initializing] and the call waits for
    [fs.mkdir]. No other job, file or timer has changed. *)
Theorem start_zip_route_registers_only_directories
    (path_resolve path_join : string → string → string)
    (absoluteTargetDir tempDir : string) (stat : string → option Stats)
    (foldername : string) (query_path : option string) (random : string)
    (temp_exists : bool) (elapsed1 elapsed2 : N) (s : Server) :
  let out := start_zip_route path_resolve path_join absoluteTargetDir tempDir stat
               foldername query_path random temp_exists elapsed1 elapsed2 s in
  ((∀ jobId, out.1.1 ≠ Started jobId) → out.1.2 = None ∧ out.2 = s)
  ∧ (∀ jobId, out.1.1 = Started jobId →
       ∃ currentDir stats job,
         getValidatedPath path_resolve absoluteTargetDir (or_default query_path "")
           = Ok currentDir
         ∧ stat (path_join currentDir foldername) = Some stats
         ∧ isDirectory stats = true
         ∧ jobId = "zip_" +:+ pretty (now s) +:+ "_" +:+ random
         ∧ getJob jobId out.2 = Some job
         ∧ folderPath job = path_join currentDir foldername
         ∧ startTime job = now s + elapsed1
         ∧ untouched job
         ∧ error job = None ∧ zipPath job = None
         ∧ (temp_exists = true →
              out.1.2 = Some (CountingFiles jobId
                                (make_zipPath path_join tempDir foldername
                                   (now s + elapsed1 + elapsed2)))
              ∧ status job = counting
              ∧ currentFile job = "Counting files...")
         ∧ (temp_exists = false →
              out.1.2 = Some (Setup jobId
                                (make_zipPath path_join tempDir foldername
                                   (now s + elapsed1 + elapsed2)))
              ∧ status job = initializing
              ∧ currentFile job = "")
         ∧ (∀ other, other ≠ jobId → getJob other out.2 = getJob other s)
         ∧ files out.2 = files s ∧ timers out.2 = timers s
         ∧ now out.2 = now s + elapsed1 + elapsed2).
Proof.
  unfold start_zip_route.
  destruct (getValidatedPath _ _ _) as [currentDir|err]; simpl; [|by split].
  destruct (stat (path_join currentDir foldername)) as [stats|] eqn:Hstat; simpl;
    [|by split].
  destruct (isDirectory stats) eqn:Hdir; simpl; [|by split].
  set (jobId0 := "zip_" +:+ pretty (now s) +:+ "_" +:+ random).
  set (s1 := createJob jobId0 (path_join currentDir foldername)
               (advance_clock elapsed1 s)).
  assert (Hother : ∀ other, other ≠ jobId0 →
            getJob other (advance_clock elapsed2 s1) = getJob other s).
  { intros other Hne. unfold getJob, s1, createJob; simpl.
    by rewrite lookup_insert_ne. }
  assert (Hjob0 : getJob jobId0 (advance_clock elapsed2 s1)
            = Some {| job_id := jobId0;
                      folderPath := path_join currentDir foldername;
                      startTime := now s + elapsed1;
                      progress := JInt 0; status := initializing;
                      filesProcessed := 0; totalFiles := 0;
                      currentFile := EmptyString; error := None;
                      zipPath := None |}).
  { unfold getJob, s1, createJob; simpl. by rewrite lookup_insert_eq. }
  destruct temp_exists; simpl.
  - split; [intros H; by destruct (H jobId0)|].
    intros jobId [= <-]. eexists currentDir, stats, _.
    split; [done|]. split; [done|]. split; [done|]. split; [done|].
    split; [rewrite getJob_updateJob, Hjob0; reflexivity|]. simpl.
    split; [done|]. split; [done|]. split; [done|]. split; [done|].
    split; [done|]. split; [done|]. split; [done|].
    split; [intros other Hne; rewrite getJob_updateJob_ne by done; by apply Hother|].
    destruct (updateJob_frame jobId0
      {| u_progress := None; u_status := Some counting; u_filesProcessed := None;
         u_totalFiles := None; u_currentFile := Some "Counting files...";
         u_zipPath := None |} (advance_clock elapsed2 s1)) as (-> & -> & ->).
    by repeat split.
  - split; [intros H; by destruct (H jobId0)|].
    intros jobId [= <-]. eexists currentDir, stats, _.
    split; [done|]. split; [done|]. split; [done|]. split; [done|].
    split; [exact Hjob0|]. simpl.
    split; [done|]. split; [done|]. split; [done|]. split; [done|].
    split; [done|]. split; [done|]. split; [done|].
    split; [exact Hother|]. by repeat split.
Qed.

Lemma start_zip_route_registers_only_directories_witness :
  (start_zip_route ex_resolve ex_join ex_targetDir ex_tempDir ex_stat
     "notes.txt" None "k3j9x0q1z" true 0 1 ex_server).2 = ex_server
  ∧ ∃ job,
      getJob ex_jobId
        (start_zip_route ex_resolve ex_join ex_targetDir ex_tempDir ex_stat
           "photos" None "k3j9x0q1z" true 0 1 ex_server).2 = Some job
      ∧ status job = counting
      ∧ startTime job = 1700000000000
      ∧ (start_zip_route ex_resolve ex_join ex_targetDir ex_tempDir ex_stat
           "photos" None "k3j9x0q1z" true 0 1 ex_server).1.2
        = Some (CountingFiles ex_jobId "/srv/app/temp/photos_1700000000001.zip").
Proof.
  split.
  - apply (start_zip_route_registers_only_directories ex_resolve ex_join ex_targetDir
             ex_tempDir ex_stat "notes.txt" None "k3j9x0q1z" true 0 1 ex_server).
    intros jobId. vm_compute. discriminate.
  - destruct (start_zip_route_registers_only_directories ex_resolve ex_join
                ex_targetDir ex_tempDir ex_stat "photos" None "k3j9x0q1z" true 0 1
                ex_server)
      as [_ H].
    destruct (H ex_jobId)
      as (_ & _ & job & _ & _ & _ & _ & Hjob & _ & Hstart & _ & _ & _ & Hyes & _);
      [vm_compute; reflexivity|].
    destruct (Hyes eq_refl) as (Htask & Hst & _).
    exists job. split; [exact Hjob|]. split; [exact Hst|].
    split; [exact Hstart|exact Htask].
Defined.

(** ** POST /api/upload *)

Lemma save_files_app (path_join : string → string → string)
    (write_failure : string → option WriteFailure) (uploadDir : string)
    (pre post : list UploadedFile) (savedFiles : list (string * N))
    (disk : gmap string string) :
  (∀ file, file ∈ pre →
     write_failure (path_join uploadDir (originalname file)) = None) →
  save_files path_join write_failure uploadDir (pre ++ post)%list savedFiles disk
  = save_files path_join write_failure uploadDir post
      (savedFiles ++ ((λ file, (originalname file, uploaded_size file)) <$> pre))%list
      (foldl (λ d file, <[path_join uploadDir (originalname file) := buffer file]> d)
         disk pre).
Proof.
  revert savedFiles disk. induction pre as [|file pre IH]; intros savedFiles disk Hok.
  - simpl. by rewrite app_nil_r.
  - simpl. rewrite (Hok file) by by left.
    rewrite IH; [|intros f Hf; apply Hok; by right].
    by rewrite <- app_assoc.
Qed.

Lemma foldl_write_other (path_join : string → string → string) (uploadDir : string)
    (l : list UploadedFile) (disk : gmap string string) (path : string) :
  (∀ file, file ∈ l → path_join uploadDir (originalname file) ≠ path) →
  foldl (λ d file, <[path_join uploadDir (originalname file) := buffer file]> d) disk l
    !! path = disk !! path.
Proof.
  revert disk. induction l as [|f l IH]; intros disk Hne; simpl; [done|].
  rewrite IH; [|intros file Hin; apply Hne; by right].
  apply lookup_insert_ne. apply Hne. by left.
Qed.

Lemma foldl_write_holds (path_join : string → string → string) (uploadDir : string)
    (l : list UploadedFile) (disk : gmap string string) :
  holds_uploads path_join uploadDir l disk
    (foldl (λ d file, <[path_join uploadDir (originalname file) := buffer file]> d)
       disk l).
Proof.
  split.
  - intros pre file post -> Hlater. rewrite foldl_app. simpl.
    rewrite foldl_write_other by done. apply lookup_insert_eq.
  - intros path Hne. by apply foldl_write_other.
Qed.

(** An upload is not atomic. When [fs.writeFile] rejects for one of the
    files, the request is answered 500 "Failed to save files: ..." with that
    error; the files that precede it in the request have been written and
    stay written, and the path of the failing file is as those writes left
    it when the file could not be opened, and holds the bytes written so
    far, in place of whatever was there, when the write itself failed. No
    other path has changed, and no later file is written. When no write
    fails, the answer lists every file with its size in the order of the
    request and the disk holds every buffer, a later file of the same name
    replacing an earlier one. *)
Theorem upload_writes_files_in_order
    (path_resolve path_join : string → string → string) (absoluteTargetDir : string)
    (existsSync : string → bool) (write_failure : string → option WriteFailure)
    (body_currentPath : option string) (uploadDir : string)
    (pre post : list UploadedFile) (disk : gmap string string) :
  getValidatedPath path_resolve absoluteTargetDir (or_default body_currentPath "")
    = Ok uploadDir →
  existsSync uploadDir = true →
  (∀ file, file ∈ pre →
     write_failure (path_join uploadDir (originalname file)) = None) →
  (∀ file failure,
     write_failure (path_join uploadDir (originalname file)) = Some failure →
     ∃ written disk',
       upload path_resolve path_join absoluteTargetDir existsSync write_failure
         None (Some (pre ++ file :: post)%list) body_currentPath disk
       = (UploadError 500 ("Failed to save files: " +:+ failure_error failure), disk')
       ∧ holds_uploads path_join uploadDir pre disk written
       ∧ match failure with
         | OpenFails _ => disk' = written
         | WriteFails _ n =>
             disk' = <[path_join uploadDir (originalname file)
                       := String.substring 0 n (buffer file)]> written
         end)
  ∧ (pre ≠ [] →
     ∃ disk',
       upload path_resolve path_join absoluteTargetDir existsSync write_failure
         None (Some pre) body_currentPath disk
       = (Uploaded "Files uploaded successfully"
            ((λ file, (originalname file, uploaded_size file)) <$> pre), disk')
       ∧ holds_uploads path_join uploadDir pre disk disk').
Proof.
  intros Hval Hex Hok. split.
  - intros file failure Herr. eexists _, _.
    split; [|split; [apply foldl_write_holds|]].
    + unfold upload. rewrite Hval, Hex. simpl.
      assert (Hne : ∃ f fs, (pre ++ file :: post)%list = f :: fs)
        by (destruct pre; simpl; eauto).
      destruct Hne as (f & fs & Heq). rewrite Heq, <- Heq.
      rewrite save_files_app by done. simpl. rewrite Herr. reflexivity.
    + by destruct failure.
  - intros Hne. eexists. split; [|apply foldl_write_holds].
    unfold upload. rewrite Hval, Hex. simpl.
    destruct pre as [|f fs] eqn:Hpre; [done|]. rewrite <- Hpre in *.
    rewrite <- (app_nil_r pre) at 1. rewrite save_files_app by done. by simpl.
Qed.

Lemma upload_writes_files_in_order_witness :
  (∃ disk',
     upload ex_resolve ex_join ex_targetDir ex_existsSync ex_write_failure None
       (Some (ex_uploads ++ [mkUploadedFile "huge.bin" "abcdef" 6;
                             mkUploadedFile "c.txt" "never" 5])%list) None
       {["/srv/data/huge.bin" := "previous"]}
     = (UploadError 500 "Failed to save files: ENOSPC: no space left on device",
        disk')
     ∧ disk' !! "/srv/data/a.txt" = Some "second"
     ∧ disk' !! "/srv/data/huge.bin" = Some "ab"
     ∧ disk' !! "/srv/data/c.txt" = None)
  ∧ ∃ disk',
      upload ex_resolve ex_join ex_targetDir ex_existsSync ex_write_failure None
        (Some ex_uploads) None ∅
      = (Uploaded "Files uploaded successfully"
           [("a.txt", 5); ("b.txt", 5); ("a.txt", 6)], disk')
      ∧ disk' !! "/srv/data/a.txt" = Some "second".
Proof.
  assert (Hpre : ∀ file, file ∈ ex_uploads →
            ex_write_failure (ex_join "/srv/data" (originalname file)) = None).
  { intros file Hin. unfold ex_uploads in Hin.
    repeat (apply elem_of_cons in Hin as [->|Hin]); [reflexivity..|inversion Hin]. }
  split.
  - destruct (upload_writes_files_in_order ex_resolve ex_join ex_targetDir
                ex_existsSync ex_write_failure None "/srv/data" ex_uploads
                [mkUploadedFile "c.txt" "never" 5]
                {["/srv/data/huge.bin" := "previous"]}) as [Hfail _];
      [vm_compute; reflexivity..|exact Hpre|].
    destruct (Hfail (mkUploadedFile "huge.bin" "abcdef" 6)
                (WriteFails "ENOSPC: no space left on device" 2))
      as (written & disk' & Hup & (Hlast & Hother) & ->); [reflexivity|].
    eexists. split; [exact Hup|]. split; [|split].
    + rewrite lookup_insert_ne by (by vm_compute).
      apply (Hlast [mkUploadedFile "a.txt" "first" 5; mkUploadedFile "b.txt" "other" 5]
               (mkUploadedFile "a.txt" "second" 6) []); [reflexivity|].
      intros later Hin. inversion Hin.
    + apply lookup_insert_eq.
    + rewrite lookup_insert_ne by (by vm_compute).
      rewrite (Hother "/srv/data/c.txt"); [reflexivity|].
      intros file Hin. unfold ex_uploads in Hin.
      repeat (apply elem_of_cons in Hin as [->|Hin]); [by vm_compute..|inversion Hin].
  - destruct (upload_writes_files_in_order ex_resolve ex_join ex_targetDir
                ex_existsSync ex_write_failure None "/srv/data" ex_uploads
                [] ∅) as [_ Hok];
      [vm_compute; reflexivity..|exact Hpre|].
    destruct Hok as (disk' & Hup & Hlast & _); [done|].
    exists disk'. split; [exact Hup|].
    apply (Hlast [mkUploadedFile "a.txt" "first" 5; mkUploadedFile "b.txt" "other" 5]
             (mkUploadedFile "a.txt" "second" 6) []); [reflexivity|].
    intros later Hin. inversion Hin.
Defined.

(** ** The logger's buffer *)

Lemma tail_drop {A} (l : list A) : tail l = drop 1 l.
Proof. by destruct l. Qed.


Lemma buffer_log_length entry (logBuffer : list LogEntry) :
  (length logBuffer ≤ maxBufferSize)%nat →
  (length (buffer_log entry logBuffer) ≤ maxBufferSize)%nat.
Proof.
  intros Hlen. unfold buffer_log.
  destruct (decide (maxBufferSize < length (logBuffer ++ [entry]))%nat) as [H|H].
  - rewrite tail_drop, length_drop, length_app in *. simpl in *. lia.
  - lia.
Qed.

Lemma buffer_log_drop entry (logBuffer : list LogEntry) :
  (length logBuffer ≤ maxBufferSize)%nat →
  buffer_log entry logBuffer
  = drop (length (logBuffer ++ [entry]) - maxBufferSize) (logBuffer ++ [entry]).
Proof.
  intros Hlen. unfold buffer_log.
  destruct (decide (maxBufferSize < length (logBuffer ++ [entry]))%nat) as [H|H].
  - rewrite length_app in *. simpl in *.
    replace (length logBuffer + 1 - maxBufferSize)%nat with 1%nat by lia.
    apply tail_drop.
  - replace (length (logBuffer ++ [entry]) - maxBufferSize)%nat with 0%nat by lia.
    done.
Qed.

(** The memory buffer of the logger holds the most recent entries, oldest
    first, and never more than 1000 of them: after any number of calls of
    [log] on a buffer within the bound, the buffer is what was there
    followed by the new entries, cut down to its last 1000 elements. *)
Theorem logBuffer_keeps_last_1000 (entries logBuffer : list LogEntry) :
  (length logBuffer ≤ 1000)%nat →
  foldl (λ buf entry, buffer_log entry buf) logBuffer entries
  = drop (length (logBuffer ++ entries) - 1000) (logBuffer ++ entries)
  ∧ (length (foldl (λ buf entry, buffer_log entry buf) logBuffer entries) ≤ 1000)%nat.
Proof.
  revert logBuffer. induction entries as [|entry entries IH]; intros logBuffer Hlen.
  - simpl. rewrite app_nil_r.
    replace (length logBuffer - 1000)%nat with 0%nat by lia. done.
  - simpl.
    destruct (IH (buffer_log entry logBuffer)) as [Heq Hle].
    { by apply buffer_log_length. }
    split; [|done]. rewrite Heq, buffer_log_drop by done.
    change maxBufferSize with 1000%nat.
    rewrite (cons_middle entry logBuffer entries), app_assoc.
    set (l := (logBuffer ++ [entry])%list).
    rewrite <- (drop_app_le l entries (length l - 1000)) by lia.
    rewrite drop_drop. f_equal.
    rewrite length_drop, !length_app. lia.
Qed.

Lemma logBuffer_keeps_last_1000_witness :
  (length (foldl (λ buf entry, buffer_log entry buf) []
             (replicate 1500 (logEntry "t" "INFO" "m" None None))) ≤ 1000)%nat.
Proof.
  apply (logBuffer_keeps_last_1000
           (replicate 1500 (logEntry "t" "INFO" "m" None None)) []).
  simpl. lia.
Defined.

(** [getRecentLogs(limit)] is [slice(-limit)]: a positive limit gives the
    last [limit] entries (all of them when the buffer is shorter), a limit
    of 0 gives the whole buffer and not the empty list, and a negative
    limit -k gives the buffer without its first k entries. *)
Theorem getRecentLogs_by_sign (limit : Z) (logBuffer : list LogEntry) :
  ((0 < limit)%Z →
     getRecentLogs limit logBuffer
     = drop (length logBuffer - Z.to_nat limit) logBuffer
     ∧ length (getRecentLogs limit logBuffer)
       = Nat.min (Z.to_nat limit) (length logBuffer))
  ∧ (limit = 0%Z → getRecentLogs limit logBuffer = logBuffer)
  ∧ ((limit < 0)%Z →
     getRecentLogs limit logBuffer = drop (Z.to_nat (- limit)) logBuffer).
Proof.
  unfold getRecentLogs, slice_from. split; [|split].
  - intros Hpos. destruct (- limit <? 0)%Z eqn:E; [|lia].
    rewrite Z.opp_involutive. split; [done|]. rewrite length_drop. lia.
  - by intros ->.
  - intros Hneg. destruct (- limit <? 0)%Z eqn:E; [lia|done].
Qed.

Lemma getRecentLogs_by_sign_witness :
  getRecentLogs 2
    [logEntry "t1" "INFO" "a" None None; logEntry "t2" "WARN" "b" None None;
     logEntry "t3" "ERROR" "c" None None]
  = [logEntry "t2" "WARN" "b" None None; logEntry "t3" "ERROR" "c" None None]
  ∧ getRecentLogs (-1)
      [logEntry "t1" "INFO" "a" None None; logEntry "t2" "WARN" "b" None None;
       logEntry "t3" "ERROR" "c" None None]
    = [logEntry "t2" "WARN" "b" None None; logEntry "t3" "ERROR" "c" None None].
Proof.
  split.
  - apply (getRecentLogs_by_sign 2
             [logEntry "t1" "INFO" "a" None None; logEntry "t2" "WARN" "b" None None;
              logEntry "t3" "ERROR" "c" None None]). lia.
  - apply (getRecentLogs_by_sign (-1)
             [logEntry "t1" "INFO" "a" None None; logEntry "t2" "WARN" "b" None None;
              logEntry "t3" "ERROR" "c" None None]). lia.
Defined.




(** The buffer after that request, entry by entry. *)
Example logs_route_last_three :
  (λ entry, (log_level entry, log_message entry))
  <$> drop 150 (logs_route None "t1" "t2" "t3" 4
                  (mkRequest None None None "GET" (Some "/api/logs") "/api/logs")
                  (replicate 150 (logEntry "t" "INFO" "m" None None))).2
  = [("INFO", "GET /api/logs - Request started");
     ("INFO", "Logs accessed: returning 100 entries");
     ("SUCCESS", "GET /api/logs - 200 (4ms)")].
Proof. vm_compute. reflexivity. Qed.

(** ** The browser side: navigation *)

Lemma split_on_nonempty sep s : split_on sep s ≠ [].
Proof.
  induction s as [|c s IH]; simpl; [done|].
  destruct (decide (c = sep)); [done|]. by destruct (split_on sep s).
Qed.

Lemma split_on_no_sep sep s : contains_char sep s = false → split_on sep s = [s].
Proof.
  induction s as [|c s IH]; simpl; [done|].
  intros [Hc Hs]%orb_false_iff. apply bool_decide_eq_false in Hc.
  destruct (decide (c = sep)); [done|]. by rewrite (IH Hs).
Qed.

Lemma split_on_app sep a b :
  split_on sep (a +:+ String sep b) = (split_on sep a ++ split_on sep b)%list.
Proof.
  induction a as [|c a IH]; simpl.
  - by destruct (decide (sep = sep)).
  - destruct (decide (c = sep)); [by rewrite IH|].
    rewrite IH. pose proof (split_on_nonempty sep a).
    by destruct (split_on sep a).
Qed.

Lemma join_split sep s : join_with (String sep "") (split_on sep s) = s.
Proof.
  induction s as [|c s IH]; simpl; [done|].
  destruct (decide (c = sep)) as [->|Hc].
  - pose proof (split_on_nonempty sep s).
    destruct (split_on sep s) as [|p ps] eqn:E; [done|].
    simpl in *. by rewrite IH.
  - pose proof (split_on_nonempty sep s).
    destruct (split_on sep s) as [|p ps] eqn:E; [done|].
    destruct ps as [|q ps]; simpl in *; by rewrite <- IH.
Qed.

Lemma removelast_snoc {A} (l : list A) x : removelast (l ++ [x]) = l.
Proof. apply removelast_last. Qed.

(** Going into a folder and up again leads back: for a folder name without
    a slash, [navigateUp] after [navigateInto] restores [currentPath],
    whatever it was; and at the root [navigateUp] leaves the path empty. *)
Theorem navigateUp_undoes_navigateInto (foldername currentPath : string) :
  contains_char "/" foldername = false →
  navigateUp (navigateInto foldername currentPath) = currentPath
  ∧ navigateUp "" = "".
Proof.
  intros Hno. split; [|done]. unfold navigateInto, navigateUp.
  destruct (decide (currentPath = "")) as [->|Hne].
  - destruct (decide (foldername = "")) as [->|Hf]; [done|].
    by rewrite split_on_no_sep.
  - destruct (decide (currentPath +:+ "/" +:+ foldername = "")) as [Heq|_].
    { by destruct currentPath. }
    change (currentPath +:+ "/" +:+ foldername)
      with (currentPath +:+ String "/" foldername).
    rewrite split_on_app, (split_on_no_sep _ foldername) by done.
    rewrite removelast_snoc. apply join_split.
Qed.

Lemma navigateUp_undoes_navigateInto_witness :
  navigateUp (navigateInto "2024" "photos/trips") = "photos/trips".
Proof.
  apply (navigateUp_undoes_navigateInto "2024" "photos/trips"). reflexivity.
Defined.

(** The elapsed time shown never runs ahead of the time elapsed: below one
    hour minutes and seconds are exact, from one hour on the seconds are
    dropped, so the display lags by less than a minute; minutes and seconds
    shown are always below 60. *)
Theorem formatElapsedTime_parts (seconds : N) :
  (seconds < 60 → formatElapsedTime seconds = pretty seconds +:+ "s")
  ∧ (60 ≤ seconds < 3600 →
     ∃ m r, formatElapsedTime seconds = pretty m +:+ "m " +:+ pretty r +:+ "s"
            ∧ 1 ≤ m < 60 ∧ r < 60 ∧ seconds = 60 * m + r)
  ∧ (3600 ≤ seconds →
     ∃ h m, formatElapsedTime seconds = pretty h +:+ "h " +:+ pretty m +:+ "m"
            ∧ 1 ≤ h ∧ m < 60
            ∧ 3600 * h + 60 * m ≤ seconds < 3600 * h + 60 * m + 60).
Proof.
  unfold formatElapsedTime. split; [|split].
  - intros H. apply N.ltb_lt in H. by rewrite H.
  - intros [H1 H2].
    assert (E1 : (seconds <? 60) = false) by (apply N.ltb_ge; lia).
    assert (E2 : (seconds <? 3600) = true) by (apply N.ltb_lt; lia).
    rewrite E1, E2. exists (seconds / 60), (seconds mod 60).
    split; [done|].
    pose proof (N.Div0.div_mod seconds 60).
    pose proof (N.mod_lt seconds 60 ltac:(lia)).
    assert (seconds / 60 < 60) by (apply N.Div0.div_lt_upper_bound; lia).
    assert (1 ≤ seconds / 60) by (apply N.div_le_lower_bound; lia).
    lia.
  - intros H.
    assert (E1 : (seconds <? 60) = false) by (apply N.ltb_ge; lia).
    assert (E2 : (seconds <? 3600) = false) by (apply N.ltb_ge; lia).
    rewrite E1, E2. exists (seconds / 3600), (seconds mod 3600 / 60).
    split; [done|].
    pose proof (N.Div0.div_mod seconds 3600).
    pose proof (N.mod_lt seconds 3600 ltac:(lia)).
    pose proof (N.Div0.div_mod (seconds mod 3600) 60).
    pose proof (N.mod_lt (seconds mod 3600) 60 ltac:(lia)).
    assert (seconds mod 3600 / 60 < 60) by (apply N.Div0.div_lt_upper_bound; lia).
    assert (1 ≤ seconds / 3600) by (apply N.div_le_lower_bound; lia).
    generalize dependent (seconds mod 3600 mod 60).
    generalize dependent (seconds mod 3600 / 60).
    generalize dependent (seconds mod 3600).
    generalize dependent (seconds / 3600).
    intros; lia.
Qed.

Lemma formatElapsedTime_parts_witness :
  formatElapsedTime 45 = "45s"
  ∧ ∃ h m, formatElapsedTime 3725 = pretty h +:+ "h " +:+ pretty m +:+ "m"
           ∧ 1 ≤ h ∧ m < 60
           ∧ 3600 * h + 60 * m ≤ 3725 < 3600 * h + 60 * m + 60.
Proof.
  split.
  - apply (formatElapsedTime_parts 45). lia.
  - apply (formatElapsedTime_parts 3725). lia.
Defined.

(** ** The percentage written by the 'entry' handler *)

(** For a positive [totalFiles] the percentage is an integer that does not
    decrease when [filesProcessed] grows, is never negative, and stays
    within 100 as long as [filesProcessed] does not exceed [totalFiles]:
    the double arithmetic keeps the stored value within one half of the
    exact one, for any number of files below 2^43. *)
Theorem percent_monotone_and_bounded (filesProcessed filesProcessed' totalFiles : N) :
  0 < totalFiles → filesProcessed ≤ filesProcessed' → filesProcessed' < 2 ^ 43 →
  ∃ z z',
    percent filesProcessed totalFiles = JInt z
    ∧ percent filesProcessed' totalFiles = JInt z'
    ∧ (0 ≤ z ≤ z')%Z
    ∧ (filesProcessed' ≤ totalFiles → (z' ≤ 100)%Z)
    ∧ (filesProcessed' = totalFiles → z' = 100%Z)
    ∧ (filesProcessed = 0 → z = 0%Z).
Proof.
  intros Hpos Hle Hlt.
  destruct (percent_nearest filesProcessed totalFiles Hpos ltac:(lia))
    as (z & Hz & Hband).
  destruct (percent_nearest filesProcessed' totalFiles Hpos Hlt)
    as (z' & Hz' & Hband').
  exists z, z'. split; [done|]. split; [done|].
  split; [|split; [|split]].
  - split; [nia|].
    destruct (decide (filesProcessed = filesProcessed')) as [->|Hne].
    + rewrite Hz in Hz'. injection Hz' as ->. lia.
    + nia.
  - intros Hfp. nia.
  - intros ->. nia.
  - intros ->. nia.
Qed.

Lemma percent_monotone_and_bounded_witness :
  ∃ z z', percent 1 3 = JInt z ∧ percent 2 3 = JInt z' ∧ (0 ≤ z ≤ z')%Z
          ∧ (2 ≤ 3 → (z' ≤ 100)%Z) ∧ (2 = 3 → z' = 100%Z) ∧ (1 = 0 → z = 0%Z).
Proof.
  apply (percent_monotone_and_bounded 1 2 3); lia.
Defined.

(** The bar can show 100 before the archive is complete. The stored value
    is 100 whenever 199 * totalFiles < 200 * filesProcessed
    < 201 * totalFiles, and only if both hold with <=; so for a folder of
    200 files or more the job already shows 100 with the last file still
    to come. *)
Theorem percent_100_before_the_last_entry (filesProcessed totalFiles : N) :
  0 < totalFiles → filesProcessed < 2 ^ 43 →
  (percent filesProcessed totalFiles = JInt 100
   → 199 * totalFiles ≤ 200 * filesProcessed ≤ 201 * totalFiles)
  ∧ (199 * totalFiles < 200 * filesProcessed < 201 * totalFiles
     → percent filesProcessed totalFiles = JInt 100)
  ∧ (filesProcessed + 1 = totalFiles → 200 ≤ totalFiles
     → percent filesProcessed totalFiles = JInt 100).
Proof.
  intros Hpos Hlt.
  destruct (percent_nearest filesProcessed totalFiles Hpos Hlt) as (z & Hz & Hband).
  assert (Hin : 199 * totalFiles < 200 * filesProcessed < 201 * totalFiles
                → percent filesProcessed totalFiles = JInt 100).
  { intros H. rewrite Hz. f_equal. nia. }
  split; [|split; [done|]].
  - rewrite Hz. intros [= ->]. lia.
  - intros Hlast Hbig. destruct (decide (totalFiles = 200)) as [->|Hne].
    + assert (filesProcessed = 199) as -> by lia. vm_compute. reflexivity.
    + apply Hin. lia.
Qed.

Lemma percent_100_before_the_last_entry_witness :
  percent 199 200 = JInt 100 ∧ percent 999 1000 = JInt 100.
Proof.
  split.
  - destruct (percent_100_before_the_last_entry 199 200) as (_ & _ & H);
      [lia|lia|]. apply H; lia.
  - destruct (percent_100_before_the_last_entry 999 1000) as (_ & H & _);
      [lia|lia|]. apply H; lia.
Defined.

(** ** Jobs side by side, eviction, and the files left behind *)

Lemma getJob_errorJob_ne jobId other err s :
  jobId ≠ other → getJob other (errorJob jobId err s) = getJob other s.
Proof.
  intros Hne. unfold getJob, errorJob.
  destruct (activeJobs s !! jobId); simpl; [by rewrite lookup_insert_ne|done].
Qed.

Lemma errorJob_timers_other jobId other err s t :
  jobId ≠ other →
  (t, DeleteJob other) ∈ timers (errorJob jobId err s) → (t, DeleteJob other) ∈ timers s.
Proof.
  intros Hne. unfold errorJob. destruct (activeJobs s !! jobId); simpl; [|done].
  intros [H|H]%elem_of_app; [done|].
  apply list_elem_of_singleton in H. congruence.
Qed.

Lemma errorJob_timers_unlink jobId err s t path :
  (t, UnlinkFile path) ∈ timers (errorJob jobId err s) → (t, UnlinkFile path) ∈ timers s.
Proof.
  unfold errorJob. destruct (activeJobs s !! jobId); simpl; [|done].
  intros [H|H]%elem_of_app; [done|].
  by apply list_elem_of_singleton in H.
Qed.

Lemma tick_timers_sub ms s p : p ∈ timers (tick ms s) → p ∈ timers s.
Proof.
  destruct (tick_frame ms s) as [-> _]. by intros [_ H]%list_elem_of_filter.
Qed.

Lemma step_task_jobId jobId e cfg :
  (∀ id, task_jobId cfg.1 = Some id → id = jobId) →
  ∀ id, task_jobId (step e cfg).1 = Some id → id = jobId.
Proof.
  destruct cfg as [task s]. intros H.
  destruct e; destruct task as [i z|i z|c|]; simpl in *; try done;
    intros id [= <-]; by apply H.
Qed.

Lemma step_other_job jobId other e cfg :
  other ≠ jobId →
  (∀ id, task_jobId cfg.1 = Some id → id = jobId) →
  (∀ t, (t, DeleteJob other) ∉ timers cfg.2) →
  getJob other (step e cfg).2 = getJob other cfg.2
  ∧ ∀ t, (t, DeleteJob other) ∉ timers (step e cfg).2.
Proof.
  intros Hne Hid Hquiet. destruct cfg as [task s].
  destruct e as [|err|tree| |name| |err|err|err|ms];
    [destruct task as [i z|i z|c|]; simpl in *; try done..|].
  - rewrite (Hid i eq_refl). rewrite getJob_updateJob_ne by done. split; [done|].
    intros t. by destruct (updateJob_frame jobId
      {| u_progress := None; u_status := Some counting; u_filesProcessed := None;
         u_totalFiles := None; u_currentFile := Some "Counting files...";
         u_zipPath := None |} s) as (_ & -> & _).
  - rewrite (Hid i eq_refl). rewrite getJob_errorJob_ne by done. split; [done|].
    intros t Hin%errorJob_timers_other; [by apply (Hquiet t)|done].
  - rewrite (Hid i eq_refl). rewrite getJob_updateJob_ne by done. split; [done|].
    intros t. by destruct (updateJob_frame jobId
      {| u_progress := None; u_status := Some zipping; u_filesProcessed := None;
         u_totalFiles := Some (countFilesRecursive tree); u_currentFile := None;
         u_zipPath := None |} s) as (_ & -> & _).
  - rewrite (Hid _ eq_refl). rewrite getJob_updateJob_ne by done. split; [done|].
    intros t. by destruct (updateJob_frame jobId
      {| u_progress := Some (percent (c_filesProcessed c + 1) (c_totalFiles c));
         u_status := Some zipping; u_filesProcessed := Some (c_filesProcessed c + 1);
         u_totalFiles := None; u_currentFile := Some name; u_zipPath := None |} s)
      as (_ & -> & _).
  - unfold on_close. rewrite (Hid _ eq_refl).
    rewrite getJob_updateJob_ne by done. split; [done|].
    intros t. by destruct (updateJob_frame jobId
      {| u_progress := Some (JInt 100); u_status := Some completed;
         u_filesProcessed := None; u_totalFiles := None;
         u_currentFile := Some "Completed"; u_zipPath := Some (c_zipPath c) |} s)
      as (_ & -> & _).
  - rewrite (Hid _ eq_refl). rewrite getJob_errorJob_ne by done. split; [done|].
    intros t Hin%errorJob_timers_other; [by apply (Hquiet t)|done].
  - rewrite (Hid _ eq_refl). rewrite getJob_errorJob_ne by done. split; [done|].
    intros t Hin%errorJob_timers_other; [by apply (Hquiet t)|done].
  - rewrite (Hid _ eq_refl). rewrite getJob_errorJob_ne by done. split; [done|].
    intros t Hin%errorJob_timers_other; [by apply (Hquiet t)|done].
  - assert (Hstep : step (Tick ms) (task, s) = (task, tick ms s)) by by destruct task.
    rewrite Hstep. simpl in *. split.
    + apply tick_jobs_keep. intros t Hin. by apply Hquiet in Hin.
    + intros t Hin%tick_timers_sub. by apply (Hquiet t).
Qed.

(** Jobs do not interfere. Whatever happens to the run of one job (entries,
    failures, close, the passing of time), the record of any other job for
    which no eviction is pending stays exactly as it was, and no eviction of
    it gets scheduled. *)
Theorem run_leaves_other_jobs_alone
    (path_join : string → string → string) (tempDir jobId folder foldername : string)
    (s : Server) (evs : list event) (other : string) :
  other ≠ jobId →
  (∀ t, (t, DeleteJob other) ∉ timers s) →
  getJob other (run evs (start_zip path_join tempDir jobId folder foldername s)).2
    = getJob other s
  ∧ ∀ t, (t, DeleteJob other)
         ∉ timers (run evs (start_zip path_join tempDir jobId folder foldername s)).2.
Proof.
  intros Hne Hquiet.
  enough (H : (∀ id, task_jobId
                 (run evs (start_zip path_join tempDir jobId folder foldername s)).1
                 = Some id → id = jobId)
              ∧ getJob other
                  (run evs (start_zip path_join tempDir jobId folder foldername s)).2
                = getJob other s
              ∧ ∀ t, (t, DeleteJob other)
                     ∉ timers (run evs (start_zip path_join tempDir jobId folder
                                          foldername s)).2)
    by (destruct H as (_ & H1 & H2); by split).
  induction evs as [|e evs IH] using rev_ind.
  - simpl. split; [by intros id [= <-]|]. split; [|done].
    unfold getJob, createJob; simpl. by rewrite lookup_insert_ne.
  - rewrite run_snoc. destruct IH as (Hid & Hjob & Hq).
    split; [by apply step_task_jobId|].
    destruct (step_other_job jobId other e _ Hne Hid Hq) as [H1 H2].
    split; [by rewrite H1|done].
Qed.

Lemma run_leaves_other_jobs_alone_witness :
  getJob ex_jobId
    (run [MkdirOk; Counted ex_tree; OutputOpen; Entry "a.txt"; OutputError "ENOSPC";
          OutputClose; Tick 60000]
       (start_zip ex_join ex_tempDir ex_jobId_second "/srv/data/other" "other"
          ex_completed)).2
  = getJob ex_jobId ex_completed.
Proof.
  apply (run_leaves_other_jobs_alone ex_join ex_tempDir ex_jobId_second
           "/srv/data/other" "other" ex_completed
           [MkdirOk; Counted ex_tree; OutputOpen; Entry "a.txt"; OutputError "ENOSPC";
            OutputClose; Tick 60000] ex_jobId).
  - discriminate.
  - intros t Hin. vm_compute in Hin. inversion Hin.
Defined.

(** The grace period of [errorJob] and [completeJob] is thirty seconds,
    neither less nor more: a job for which no other eviction is pending can
    still be read, in its terminal state, at every instant before the
    thirty seconds are over, and is gone (the progress route answers 404)
    from then on. *)
Theorem terminal_job_evicted_after_30_seconds
    (jobId : string) (err : Error) (s : Server) (job : Job) (ms : N) :
  getJob jobId s = Some job →
  (∀ t, (t, DeleteJob jobId) ∉ timers s) →
  (ms < 30000 →
     (∃ job', getJob jobId (tick ms (errorJob jobId err s)) = Some job'
              ∧ status job' = error_ ∧ error job' = Some err)
     ∧ (∃ job', getJob jobId (tick ms (completeJob jobId s)) = Some job'
                ∧ status job' = completed ∧ progress job' = JInt 100))
  ∧ (30000 ≤ ms →
     zip_progress jobId (tick ms (errorJob jobId err s)) = JsonError 404 "Job not found"
     ∧ zip_progress jobId (tick ms (completeJob jobId s))
       = JsonError 404 "Job not found").
Proof.
  intros Hjob Hquiet. split.
  - intros Hms. split.
    + destruct (getJob_errorJob jobId err s job Hjob) as (job' & Hj & Hst & Herr & _).
      exists job'. split; [|done]. rewrite tick_jobs_keep; [done|].
      rewrite (errorJob_timers _ _ _ _ Hjob).
      destruct (errorJob_frame jobId err s) as [_ ->].
      intros t [Hin|Hin]%elem_of_app; [by apply Hquiet in Hin|].
      apply list_elem_of_singleton in Hin as [= ->]. lia.
    + destruct (getJob_completeJob jobId s job Hjob) as (job' & Hj & Hst & Hp).
      exists job'. split; [|done]. rewrite tick_jobs_keep; [done|].
      unfold getJob in Hjob. unfold completeJob. rewrite Hjob. simpl.
      intros t [Hin|Hin]%elem_of_app; [by apply Hquiet in Hin|].
      apply list_elem_of_singleton in Hin as [= ->]. lia.
  - intros Hms. unfold zip_progress.
    by rewrite (errorJob_evicts _ _ _ _ _ Hjob Hms),
               (completeJob_evicts _ _ _ _ Hjob Hms).
Qed.

Lemma terminal_job_evicted_after_30_seconds_witness :
  zip_progress ex_jobId (tick 30000 (errorJob ex_jobId "EACCES" ex_start.2))
  = JsonError 404 "Job not found"
  ∧ ∃ job', getJob ex_jobId (tick 29999 (errorJob ex_jobId "EACCES" ex_start.2))
            = Some job'
            ∧ status job' = error_ ∧ error job' = Some "EACCES".
Proof.
  assert (Hjob : getJob ex_jobId ex_start.2
                 = Some {| job_id := ex_jobId; folderPath := "/srv/data/photos";
                           startTime := 1700000000000; progress := JInt 0;
                           status := initializing; filesProcessed := 0;
                           totalFiles := 0; currentFile := ""; error := None;
                           zipPath := None |}) by (vm_compute; reflexivity).
  assert (Hquiet : ∀ t, (t, DeleteJob ex_jobId) ∉ timers ex_start.2)
    by (intros t Hin; vm_compute in Hin; inversion Hin).
  split.
  - apply (terminal_job_evicted_after_30_seconds ex_jobId "EACCES" ex_start.2 _ 30000
             Hjob Hquiet). lia.
  - apply (terminal_job_evicted_after_30_seconds ex_jobId "EACCES" ex_start.2 _ 29999
             Hjob Hquiet). lia.
Defined.

Lemma step_keeps_file e cfg path :
  path ∈ files cfg.2 →
  (∀ t, (t, UnlinkFile path) ∉ timers cfg.2) →
  path ∈ files (step e cfg).2 ∧ ∀ t, (t, UnlinkFile path) ∉ timers (step e cfg).2.
Proof.
  intros Hin Hquiet. destruct cfg as [task s].
  assert (Hupd : ∀ jobId u,
            path ∈ files (updateJob jobId u s)
            ∧ ∀ t, (t, UnlinkFile path) ∉ timers (updateJob jobId u s)).
  { intros jobId u. by destruct (updateJob_frame jobId u s) as (-> & -> & _). }
  assert (Herr : ∀ jobId err,
            path ∈ files (errorJob jobId err s)
            ∧ ∀ t, (t, UnlinkFile path) ∉ timers (errorJob jobId err s)).
  { intros jobId err. destruct (errorJob_frame jobId err s) as [-> _].
    split; [done|]. intros t Ht%errorJob_timers_unlink. by apply (Hquiet t). }
  destruct e as [|err|tree| |name| |err|err|err|ms];
    [destruct task as [i z|i z|c|]; simpl in *; try done;
     try apply Hupd; try apply Herr..|].
  - split; [set_solver|done].
  - assert (Hstep : step (Tick ms) (task, s) = (task, tick ms s)) by by destruct task.
    rewrite Hstep. simpl in *. split.
    + apply tick_files. split; [done|]. intros t Ht. by apply Hquiet in Ht.
    + intros t Ht%tick_timers_sub. by apply (Hquiet t).
Qed.

(** [createZipWithProgress] never removes a file. A file of the temp
    directory for which no cleanup is pending is still there after any
    events of a run, failures and the job's eviction included, and no
    cleanup of it gets scheduled: only a completed download does that. *)
Theorem run_never_removes_files (evs : list event) (cfg : Task * Server) (path : string) :
  path ∈ files cfg.2 →
  (∀ t, (t, UnlinkFile path) ∉ timers cfg.2) →
  path ∈ files (run evs cfg).2 ∧ ∀ t, (t, UnlinkFile path) ∉ timers (run evs cfg).2.
Proof.
  intros Hin Hquiet. induction evs as [|e evs IH] using rev_ind; [done|].
  rewrite run_snoc. destruct IH as [H1 H2]. by apply step_keeps_file.
Qed.

Lemma run_never_removes_files_witness :
  ex_zipPath ∈ files (run [Entry "b.txt"; ArchiveError "EACCES"; Tick 30000]
                        (run [MkdirOk; Counted ex_tree_flat; OutputOpen; Entry "a.txt"]
                           ex_start)).2
  ∧ getJob ex_jobId (run [Entry "b.txt"; ArchiveError "EACCES"; Tick 30000]
                       (run [MkdirOk; Counted ex_tree_flat; OutputOpen; Entry "a.txt"]
                          ex_start)).2 = None.
Proof.
  split; [|vm_compute; reflexivity].
  apply (run_never_removes_files [Entry "b.txt"; ArchiveError "EACCES"; Tick 30000]
           (run [MkdirOk; Counted ex_tree_flat; OutputOpen; Entry "a.txt"] ex_start)
           ex_zipPath).
  - apply (bool_decide_unpack _). vm_compute. exact I.
  - intros t Ht. vm_compute in Ht. inversion Ht.
Defined.

(** ** countFilesRecursive on readable and unreadable trees *)

(** The count is a lower bound: [countFilesRecursive] never returns more
    than the number of non-directory entries under the folder, and on a
    folder in which every path can be listed and stat-ed it returns exactly
    that number. *)
Theorem countFilesRecursive_exact_when_readable (items : list (string * node)) :
  countFilesRecursive (Dir items) ≤ non_directory_entries (Dir items)
  ∧ (readable (Dir items) = true →
     countFilesRecursive (Dir items) = non_directory_entries (Dir items)).
Proof.
  split; [apply countFilesRecursive_le|apply countFilesRecursive_readable].
Qed.

Lemma countFilesRecursive_exact_when_readable_witness :
  countFilesRecursive
    (Dir [("a.txt", File); ("sub", Dir [("b.txt", File); ("deep", Dir [("c", File)])])])
  = 3.
Proof.
  apply (countFilesRecursive_exact_when_readable
           [("a.txt", File); ("sub", Dir [("b.txt", File); ("deep", Dir [("c", File)])])]).
  reflexivity.
Defined.

(** A sub-folder that cannot be listed is skipped and nothing else is: the
    entries that follow it in the listing are counted as if it were not
    there. An entry whose [stat] throws ends the count of the folder that
    lists it: the files before it are counted, those after it are not. *)
Theorem countFilesRecursive_failure_modes
    (before after : list (string * node)) (name : string) :
  readable (Dir before) = true →
  countFilesRecursive (Dir (before ++ (name, UnreadableDir) :: after))
    = countFilesRecursive (Dir (before ++ after))
  ∧ countFilesRecursive (Dir (before ++ (name, Unstatable) :: after))
    = non_directory_entries (Dir before).
Proof.
  intros Hr. rewrite !countFilesRecursive_Dir.
  rewrite <- (countFilesRecursive_readable before Hr), countFilesRecursive_Dir.
  clear Hr. generalize 0.
  induction before as [|[n item] before IH]; intros count; simpl.
  - split; [by rewrite N.add_0_r|done].
  - destruct item; try done; apply IH.
Qed.

Lemma countFilesRecursive_failure_modes_witness :
  countFilesRecursive
    (Dir ([("a.txt", File)] ++ ("locked", UnreadableDir) :: [("b.txt", File)]))
  = countFilesRecursive (Dir ([("a.txt", File)] ++ [("b.txt", File)]))
  ∧ countFilesRecursive
      (Dir ([("a.txt", File)] ++ ("gone", Unstatable) :: [("b.txt", File)]))
    = non_directory_entries (Dir [("a.txt", File)]).
Proof.
  split.
  - apply (countFilesRecursive_failure_modes [("a.txt", File)] [("b.txt", File)]
             "locked"). reflexivity.
  - apply (countFilesRecursive_failure_modes [("a.txt", File)] [("b.txt", File)]
             "gone"). reflexivity.
Defined.
